(** * limit_reached.py: the bounded, randomised, depth-first crawl

    A shallow embedding of [src/limit_reached.py].  The Python program keeps
    its crawl state in four shared mutable objects ([visited_links],
    [unique_urls], [job_results], [last_save_time]) and talks to a browser, a
    clock, a random generator and the file system.  Here the shared objects
    are one store threaded through a state-and-exception monad, and the
    collaborators are an oracle [Env] over an abstract world. *)

From stdpp Require Import gmap strings list.
From Stdlib Require Import ZArith.

Open Scope Z_scope.

(** ** Data *)

(** The dictionary [{"title": title, "url": url}] built by [extract_job_data]. *)
Record Job : Type := mkJob { title : string; url : string }.

(** Exceptions of class [Exception] the collaborators raise; [RetryError] is
    what the retry decorator raises once its attempts are used up. *)
Inductive exn : Type :=
| TimeoutError (msg : string)
| Error (msg : string)
| RetryError (last : exn).

(** Result of one call to a collaborator. *)
Inductive Res (A : Type) : Type :=
| Ok (a : A)
| Err (e : exn).
Arguments Ok {A} a.
Arguments Err {A} e.

(** What [pd.DataFrame(data)] holds for a list of job dictionaries: the
    column labels and one row of cells per dictionary. *)
Record DataFrame : Type := mkDataFrame { columns : list string; rows : list (list string) }.

(** The column labels are the keys of the dictionaries; an empty list has
    no dictionary to take keys from, so the frame has no columns. *)
Definition pd_DataFrame (data : list Job) : DataFrame :=
  match data with
  | [] => mkDataFrame [] []
  | _ :: _ => mkDataFrame ["title"; "url"]%string (map (fun j => [title j; url j]) data)
  end.

(** The browser session calls of [scrape_jobs] (lines 121-124, 143-144 and
    the exit of the [async with] block). *)
Inductive SessionOp : Type :=
| PlaywrightStart | ChromiumLaunch | NewContext | NewPage
| ContextClose | BrowserClose | PlaywrightStop.

(** The module constants (lines 12-20) that the crawl reads. *)
Record Config : Type := mkConfig {
  ROOT_URL : string;
  CSV_OUTPUT : string;
  MAX_RECORDS : nat;
  GLOBAL_TIMEOUT : Z;
  MAX_RETRY_FAILS : nat;
  TIMEOUT_TOTAL_SECONDS : Z;
  TIMEOUT_DEEPER_SECONDS : Z
}.

Definition source_config : Config :=
  {| ROOT_URL := "https://justjoin.it/job-offers/warszawa/testing";
     CSV_OUTPUT := "JobResults.csv";
     MAX_RECORDS := 150;
     GLOBAL_TIMEOUT := 30000;
     MAX_RETRY_FAILS := 3;
     TIMEOUT_TOTAL_SECONDS := 60;
     TIMEOUT_DEEPER_SECONDS := 45 |}.

Definition with_MAX_RECORDS (m : nat) (cfg : Config) : Config :=
  {| ROOT_URL := ROOT_URL cfg;
     CSV_OUTPUT := CSV_OUTPUT cfg;
     MAX_RECORDS := m;
     GLOBAL_TIMEOUT := GLOBAL_TIMEOUT cfg;
     MAX_RETRY_FAILS := MAX_RETRY_FAILS cfg;
     TIMEOUT_TOTAL_SECONDS := TIMEOUT_TOTAL_SECONDS cfg;
     TIMEOUT_DEEPER_SECONDS := TIMEOUT_DEEPER_SECONDS cfg |}.

(** The collaborators, as functions on an abstract world [W].  Clock
    readings ([time.time()], a float number of seconds in the source) are
    integers here: the program only subtracts and compares them. *)
Record Env (W : Type) : Type := mkEnv {
  env_time : W -> Z * W;
  env_goto : string -> Z -> W -> Res unit * W;
  env_wait_for_function : Z -> W -> Res unit * W;
  env_wait_for_timeout : Z -> W -> Res unit * W;
  env_inner_text : Z -> W -> Res string * W;
  env_page_url : W -> string;
  env_eval_on_selector_all : W -> Res (list string) * W;
  env_shuffle : list string -> W -> list string * W;
  env_sleep : Z -> W -> W;
  env_session : SessionOp -> W -> Res unit * W;
  env_to_csv : DataFrame -> string -> W -> Res unit * W
}.
Arguments env_time {W}.
Arguments env_goto {W}.
Arguments env_wait_for_function {W}.
Arguments env_wait_for_timeout {W}.
Arguments env_inner_text {W}.
Arguments env_page_url {W}.
Arguments env_eval_on_selector_all {W}.
Arguments env_shuffle {W}.
Arguments env_sleep {W}.
Arguments env_session {W}.
Arguments env_to_csv {W}.

(** ** Observations *)

(** One call to a collaborator. *)
Inductive Call : Type :=
| c_time (t : Z)
| c_goto (link : string)
| c_wait_for_function
| c_wait_for_timeout (ms : Z)
| c_inner_text
| c_eval_on_selector_all
| c_shuffle
| c_sleep (secs : Z)
| c_session (op : SessionOp)
| c_to_csv (df : DataFrame) (filename : string).

(** The [logging] calls of the source, one constructor per message. *)
Inductive LogMsg : Type :=
| LogCsvError (e : exn)
| LogPageLoadTimeout (e : exn)
| LogExtractFailed (e : exn)
| LogFindFailed (e : exn)
| LogOverallTimeout
| LogVisiting (depth : nat) (link : string)
| LogSaved (depth : nat) (link : string)
| LogNotSaved (depth : nat) (link : string)
| LogDeeperTimeout (depth : nat)
| LogErrorVisiting (depth : nat) (link : string)
| LogRootStart
| LogCritical (e : exn)
| LogScraped (n : nat)
| LogNoJobs.

(** What a run leaves behind, most recent first.  [EvEnter] marks the entry
    of [process_links_recursively], [EvVisit] a [visited_links.add] and
    [EvSave] the append of a record to [job_results]. *)
Inductive Event : Type :=
| EvCall (c : Call)
| EvLog (m : LogMsg)
| EvEnter (link : string) (depth : nat)
| EvVisit (link : string)
| EvSave (job_data : Job).

(** ** The shared store *)

Record Crawl : Type := mkCrawl {
  visited_links : gset string;
  unique_urls : gset string;
  job_results : list Job;
  last_save_time : Z
}.

(** Lines 115-118, with [t] the clock reading of line 118. *)
Definition fresh_crawl (t : Z) : Crawl :=
  {| visited_links := ∅; unique_urls := ∅; job_results := []; last_save_time := t |}.

(** Outcome of a computation: a value, a raised exception, or a recursion
    cut short because the model's fuel ran out. *)
Inductive Out (A : Type) : Type :=
| Ret (a : A)
| Exc (e : exn)
| OutOfFuel.
Arguments Ret {A} a.
Arguments Exc {A} e.
Arguments OutOfFuel {A}.

Section Crawler.

Context {W : Type}.

(** The state of a run: the world, the store, the stores it went through
    before (most recent first) and the events so far. *)
Record St : Type := mkSt {
  world : W;
  crawl : Crawl;
  past : list Crawl;
  trace : list Event
}.

Definition M (A : Type) : Type := St -> Out A * St.

#[export] Instance M_ret : MRet M := fun A a s => (Ret a, s).

#[export] Instance M_bind : MBind M := fun A B k m s =>
  match m s with
  | (Ret a, s1) => k a s1
  | (Exc e, s1) => (Exc e, s1)
  | (OutOfFuel, s1) => (OutOfFuel, s1)
  end.

Definition raise {A} (e : exn) : M A := fun s => (Exc e, s).

Definition out_of_fuel {A} : M A := fun s => (OutOfFuel, s).

(** [try: body except Exception as e: handler e]: the handler starts in the
    state the body left. *)
Definition try_except {A} (body : M A) (handler : exn -> M A) : M A := fun s =>
  match body s with
  | (Exc e, s1) => handler e s1
  | r => r
  end.

(** [try: body finally: fin]: an exception of [fin] replaces the outcome of
    [body]. *)
Definition try_finally {A} (body : M A) (fin : M unit) : M A := fun s =>
  match body s with
  | (OutOfFuel, s1) => (OutOfFuel, s1)
  | (r, s1) =>
      match fin s1 with
      | (Ret _, s2) => (r, s2)
      | (Exc e, s2) => (Exc e, s2)
      | (OutOfFuel, s2) => (OutOfFuel, s2)
      end
  end.

(** A branch on a condition read from the store. *)
Definition ifM {A} (c : St -> bool) (m1 m2 : M A) : M A := fun s =>
  if c s then m1 s else m2 s.

(** The state after an event, with the world the collaborator left. *)
Definition st_event (w : W) (ev : Event) (s : St) : St :=
  {| world := w; crawl := crawl s; past := past s; trace := ev :: trace s |}.

(** The state after a store update; the store it replaces is kept in [past]. *)
Definition st_store (c : Crawl) (s : St) : St :=
  {| world := world s; crawl := c; past := crawl s :: past s; trace := trace s |}.

Definition emit (ev : Event) : M unit := fun s => (Ret tt, st_event (world s) ev s).

Definition log (m : LogMsg) : M unit := emit (EvLog m).

(** A call to a collaborator that may raise. *)
Definition call {A} (c : Call) (op : W -> Res A * W) : M A := fun s =>
  let '(r, w) := op (world s) in
  (match r with Ok a => Ret a | Err e => Exc e end, st_event w (EvCall c) s).

Definition mutate (f : Crawl -> Crawl) : M unit := fun s => (Ret tt, st_store (f (crawl s)) s).

(** ** The program *)

Context (env : Env W) (cfg : Config).

(** [time.time()]; the reading is kept in the event. *)
Definition time_time : M Z := fun s =>
  let '(t, w) := env_time env (world s) in
  (Ret t, st_event w (EvCall (c_time t)) s).

(** [random.shuffle(deeper_links)]: the list is reordered in place, in the
    order the random generator decides. *)
Definition random_shuffle (l : list string) : M (list string) := fun s =>
  let '(l', w) := env_shuffle env l (world s) in
  (Ret l', st_event w (EvCall c_shuffle) s).

(** The pause the retry decorator makes between two attempts. *)
Definition sleep (secs : Z) : M unit := fun s =>
  (Ret tt, st_event (env_sleep env secs (world s)) (EvCall (c_sleep secs)) s).

Definition page_goto (link : string) : M unit :=
  call (c_goto link) (env_goto env link (GLOBAL_TIMEOUT cfg)).

Definition page_wait_for_function : M unit :=
  call c_wait_for_function (env_wait_for_function env (GLOBAL_TIMEOUT cfg)).

Definition page_wait_for_timeout (ms : Z) : M unit :=
  call (c_wait_for_timeout ms) (env_wait_for_timeout env ms).

Definition h1_inner_text : M string :=
  call c_inner_text (env_inner_text env (GLOBAL_TIMEOUT cfg)).

(** [page.url], an attribute read. *)
Definition page_url : M string := fun s => (Ret (env_page_url env (world s)), s).

Definition eval_on_selector_all : M (list string) :=
  call c_eval_on_selector_all (env_eval_on_selector_all env).

Definition session (op : SessionOp) : M unit :=
  call (c_session op) (env_session env op).

Definition to_csv (df : DataFrame) (filename : string) : M unit :=
  call (c_to_csv df filename) (env_to_csv env df filename).

(** [write_to_csv], lines 31-37. *)
Definition write_to_csv (data : list Job) (filename : string) : M unit :=
  try_except
    (to_csv (pd_DataFrame data) filename)
    (fun e => log (LogCsvError e)).

(** [wait_for_page_load], lines 40-46: both waits are inside one [try]. *)
Definition wait_for_page_load : M unit :=
  try_except
    (page_wait_for_function;;
     page_wait_for_timeout 3000)
    (fun e => log (LogPageLoadTimeout e)).

(** The decorator [@retry(stop=stop_after_attempt(n),
    wait=wait_exponential(multiplier=1, min=2, max=10))] of the tenacity
    library: an attempt that returns ends the loop with its value; an attempt
    that raises is followed by a pause and another attempt, and once [n]
    attempts were made [RetryError] is raised. *)
Definition wait_exponential (multiplier mn mx : Z) (attempt : Z) : Z :=
  Z.max (Z.max 0 mn) (Z.min (multiplier * 2 ^ (attempt - 1)) mx).

Fixpoint retry_from {A} (more : nat) (attempt : Z) (fn : M A) : M A :=
  try_except fn (fun e =>
    match more with
    | O => raise (RetryError e)
    | S more' =>
        sleep (wait_exponential 1 2 10 attempt);;
        retry_from more' (attempt + 1) fn
    end).

Definition retry {A} (max_attempts : nat) (fn : M A) : M A :=
  retry_from (max_attempts - 1)%nat 1 fn.

(** The body of [extract_job_data], lines 52-59. *)
Definition extract_job_data_body : M (option Job) :=
  try_except
    (wait_for_page_load;;
     t ← h1_inner_text;
     u ← page_url;
     mret (Some (mkJob t u)))
    (fun e => log (LogExtractFailed e);; mret None).

(** [extract_job_data], lines 49-59. *)
Definition extract_job_data : M (option Job) :=
  retry (MAX_RETRY_FAILS cfg) extract_job_data_body.

(** The body of [find_job_links], lines 65-73. *)
Definition find_job_links_body : M (list string) :=
  try_except
    (wait_for_page_load;;
     links ← eval_on_selector_all;
     mret links)
    (fun e => log (LogFindFailed e);; mret []).

(** [find_job_links], lines 62-73. *)
Definition find_job_links : M (list string) :=
  retry (MAX_RETRY_FAILS cfg) find_job_links_body.

(** [visited_links.add(link)]. *)
Definition visited_add (link : string) : M unit :=
  mutate (fun c => {| visited_links := {[link]} ∪ visited_links c;
                      unique_urls := unique_urls c;
                      job_results := job_results c;
                      last_save_time := last_save_time c |});;
  emit (EvVisit link).

(** Lines 88-89: [job_results.append(job_data)] and
    [unique_urls.add(job_data["url"])].  Neither statement can raise and no
    [await] separates them, so they are one step of the run. *)
Definition save_job (job_data : Job) : M unit :=
  mutate (fun c => {| visited_links := visited_links c;
                      unique_urls := {[url job_data]} ∪ unique_urls c;
                      job_results := job_results c ++ [job_data];
                      last_save_time := last_save_time c |});;
  emit (EvSave job_data).

(** Line 90: [last_save_time[0] = t]. *)
Definition set_last_save_time (t : Z) : M unit :=
  mutate (fun c => {| visited_links := visited_links c;
                      unique_urls := unique_urls c;
                      job_results := job_results c;
                      last_save_time := t |}).

(** Lines 87-93. *)
Definition record_job (depth : nat) (link : string) (job_data : option Job) : M unit :=
  match job_data with
  | Some jd =>
      ifM (fun s => bool_decide (url jd ∈ unique_urls (crawl s)))
        (log (LogNotSaved depth link))
        (save_job jd;;
         t ← time_time;
         set_last_save_time t;;
         log (LogSaved depth link))
  | None => log (LogNotSaved depth link)
  end.

(** The [for] loop of lines 100-107; [explore] is the recursive call. *)
Fixpoint deeper_loop (explore : string -> nat -> M unit) (deeper_start_time : Z)
    (depth : nat) (deeper_links : list string) : M unit :=
  match deeper_links with
  | [] => mret tt
  | deeper_link :: rest =>
      now ← time_time;
      if bool_decide (now - deeper_start_time > TIMEOUT_DEEPER_SECONDS cfg)
      then log (LogDeeperTimeout depth)
      else
        ifM (fun s => bool_decide (deeper_link ∈ visited_links (crawl s)))
          (mret tt)
          (visited_add deeper_link;;
           explore deeper_link (S depth));;
        deeper_loop explore deeper_start_time depth rest
  end.

(** Lines 95-107, "find deeper links and explore recursively". *)
Definition explore_deeper (explore : string -> nat -> M unit) (depth : nat) : M unit :=
  deeper_start_time ← time_time;
  deeper_links ← find_job_links;
  deeper_links ← random_shuffle deeper_links;
  deeper_loop explore deeper_start_time depth deeper_links.

(** The [try] block of the explorer, lines 83-107. *)
Definition explore_node_body (explore : string -> nat -> M unit) (link : string) (depth : nat) : M unit :=
  log (LogVisiting depth link);;
  page_goto link;;
  job_data ← extract_job_data;
  record_job depth link job_data;;
  explore_deeper explore depth.

(** Lines 82-110: the [try] block with its handler. *)
Definition explore_node (explore : string -> nat -> M unit) (link : string) (depth : nat) : M unit :=
  try_except
    (explore_node_body explore link depth)
    (fun e => log (LogErrorVisiting depth link)).

(** [process_links_recursively], lines 76-110.  [fuel] bounds the depth of
    the recursion: a call entered without fuel is cut short. *)
Fixpoint process_links_recursively (fuel : nat) (link : string) (depth : nat) : M unit :=
  emit (EvEnter link depth);;
  match fuel with
  | O => out_of_fuel
  | S fuel' =>
      now ← time_time;
      ifM (fun s => bool_decide (now - last_save_time (crawl s) > TIMEOUT_TOTAL_SECONDS cfg))
        (log LogOverallTimeout)
        (explore_node (process_links_recursively fuel') link depth)
  end.

(** The [while] loop of lines 132-137 over the root queue. *)
Fixpoint root_loop (fuel : nat) (root_queue : list string) : M unit :=
  match root_queue with
  | [] => mret tt
  | root_link :: rest =>
      ifM (fun s => bool_decide (length (job_results (crawl s)) < MAX_RECORDS cfg)%nat)
        (ifM (fun s => bool_decide (root_link ∈ visited_links (crawl s)))
           (mret tt)
           (visited_add root_link;;
            process_links_recursively fuel root_link 0);;
         root_loop fuel rest)
        (mret tt)
  end.

(** Lines 126-144: the root phase with its handler and its [finally]. *)
Definition root_phase (fuel : nat) : M unit :=
  try_finally
    (try_except
       (log LogRootStart;;
        page_goto (ROOT_URL cfg);;
        root_links ← find_job_links;
        root_loop fuel root_links)
       (fun e => log (LogCritical e)))
    (session ContextClose;;
     session BrowserClose).

(** Lines 121-144: the [async with] block. *)
Definition browser_phase (fuel : nat) : M unit :=
  session PlaywrightStart;;
  try_finally
    (session ChromiumLaunch;;
     session NewContext;;
     session NewPage;;
     root_phase fuel)
    (session PlaywrightStop).

(** Lines 146-151. *)
Definition persist : M unit :=
  ifM (fun s => match job_results (crawl s) with [] => false | _ :: _ => true end)
    (results ← (fun s => (Ret (job_results (crawl s)), s));
     log (LogScraped (length results));;
     write_to_csv results (CSV_OUTPUT cfg))
    (log LogNoJobs;;
     write_to_csv [] (CSV_OUTPUT cfg)).

(** The state after lines 115-118. *)
Definition boot (w : W) : St :=
  let '(t, w1) := env_time env w in
  {| world := w1; crawl := fresh_crawl t; past := []; trace := [EvCall (c_time t)] |}.

(** The events of a state in the order they happened. *)
Definition timeline (s : St) : list Event := reverse (trace s).

(** [scrape_jobs], lines 113-151, started in world [w]. *)
Definition scrape_jobs (fuel : nat) (w : W) : Out unit * St :=
  (browser_phase fuel;; persist) (boot w).

End Crawler.

(** ** A simulated web

    A world for concrete runs: a site maps every address to what the browser
    meets there, the clock advances with every call and the first
    [sim_flaky] readings of the title fail. *)
Module Sim.

Record Page : Type := mkPage {
  pg_goto : Res unit;
  pg_goto_secs : Z;
  pg_ready : Res unit;
  pg_title : Res string;
  pg_url : string;
  pg_links : Res (list string);
  pg_links_secs : Z
}.

Record World : Type := mkWorld { sim_now : Z; sim_at : string; sim_flaky : nat }.

(** [d] seconds pass. *)
Definition tick (d : Z) (w : World) : World :=
  {| sim_now := sim_now w + d; sim_at := sim_at w; sim_flaky := sim_flaky w |}.

Definition env (site : string -> Page) (perm : list string -> list string) : Env World :=
  {| env_time := fun w => (sim_now w, w);
     env_goto := fun link _ w =>
       (pg_goto (site link),
        {| sim_now := sim_now w + pg_goto_secs (site link); sim_at := link; sim_flaky := sim_flaky w |});
     env_wait_for_function := fun timeout w =>
       match pg_ready (site (sim_at w)) with
       | Ok _ => (Ok tt, w)
       | Err e => (Err e, tick (timeout / 1000) w)
       end;
     env_wait_for_timeout := fun ms w => (Ok tt, tick (ms / 1000) w);
     env_inner_text := fun _ w =>
       match sim_flaky w with
       | S k => (Err (Error "locator"), {| sim_now := sim_now w; sim_at := sim_at w; sim_flaky := k |})
       | O => (pg_title (site (sim_at w)), w)
       end;
     env_page_url := fun w => pg_url (site (sim_at w));
     env_eval_on_selector_all := fun w =>
       (pg_links (site (sim_at w)), tick (pg_links_secs (site (sim_at w))) w);
     env_shuffle := fun l w => (perm l, w);
     env_sleep := fun secs w => tick secs w;
     env_session := fun _ w => (Ok tt, w);
     env_to_csv := fun _ _ w => (Ok tt, w) |}.

(** A page that loads in a second, shows a title and lists [links]. *)
Definition page (t u : string) (links : list string) : Page :=
  {| pg_goto := Ok tt; pg_goto_secs := 1; pg_ready := Ok tt; pg_title := Ok t;
     pg_url := u; pg_links := Ok links; pg_links_secs := 0 |}.

(** An address the browser cannot load. *)
Definition broken : Page :=
  {| pg_goto := Err (Error "net::ERR"); pg_goto_secs := 1; pg_ready := Ok tt;
     pg_title := Err (Error "locator"); pg_url := ""; pg_links := Ok []; pg_links_secs := 0 |}.

(** The world a run starts in. *)
Definition start : World := {| sim_now := 0; sim_at := ""; sim_flaky := 0 |}.

End Sim.

(** ** Sample sites *)

Definition root : string := ROOT_URL source_config.

(** A chain: the root lists ["x"], and every address shorter than 152
    characters lists the address one ["x"] longer. *)
Definition chain_site (a : string) : Sim.Page :=
  if decide (a = root) then Sim.page "root" a ["x"]
  else if decide (String.length a < 152)%nat then Sim.page a a [a +:+ "x"]
  else Sim.page a a [].

(** The root page takes a hundred seconds to list its two links. *)
Definition slow_root_site (a : string) : Sim.Page :=
  if decide (a = root) then
    {| Sim.pg_goto := Ok tt; Sim.pg_goto_secs := 1; Sim.pg_ready := Ok tt;
       Sim.pg_title := Ok "root"; Sim.pg_url := a; Sim.pg_links := Ok ["a"; "b"];
       Sim.pg_links_secs := 100 |}
  else Sim.page a a [].

(** Page ["a"] takes fifty seconds to list its one link. *)
Definition slow_links_site (a : string) : Sim.Page :=
  if decide (a = root) then Sim.page "root" a ["a"]
  else if decide (a = "a") then
    {| Sim.pg_goto := Ok tt; Sim.pg_goto_secs := 1; Sim.pg_ready := Ok tt;
       Sim.pg_title := Ok "A"; Sim.pg_url := a; Sim.pg_links := Ok ["b"];
       Sim.pg_links_secs := 50 |}
  else Sim.page a a [].

(** Every page keeps loading until the ready wait times out. *)
Definition never_ready_site (a : string) : Sim.Page :=
  {| Sim.pg_goto := Ok tt; Sim.pg_goto_secs := 1;
     Sim.pg_ready := Err (TimeoutError "Timeout 30000ms exceeded");
     Sim.pg_title := Ok a; Sim.pg_url := a; Sim.pg_links := Ok []; Sim.pg_links_secs := 0 |}.

(** Page ["a"] lists ["b"], which does not load, and ["c"]. *)
Definition broken_child_site (a : string) : Sim.Page :=
  if decide (a = root) then Sim.page "root" a ["a"]
  else if decide (a = "a") then Sim.page "A" "a" ["b"; "c"]
  else if decide (a = "c") then Sim.page "C" "c" []
  else Sim.broken.

(** A state in which the browser shows page [a] at time 0 and nothing has
    been collected. *)
Definition at_page (a : string) (flaky : nat) : @St Sim.World :=
  {| world := {| Sim.sim_now := 0; Sim.sim_at := a; Sim.sim_flaky := flaky |};
     crawl := fresh_crawl 0; past := []; trace := [] |}.

(** A recursive call that fails. *)
Definition failing_explore : string -> nat -> M (W := Sim.World) unit :=
  λ _ _, raise (Error "deeper recursion failed").

(** The deeper phase as the claim words it: the clock is read after the
    candidates have been found and shuffled. *)
Definition explore_deeper_as_claimed {W : Type} (env : Env W) (cfg : Config)
    (explore : string -> nat -> M unit) (depth : nat) : M unit :=
  deeper_links ← find_job_links env cfg;
  deeper_links ← random_shuffle env deeper_links;
  deeper_start_time ← time_time env;
  deeper_loop env cfg explore deeper_start_time depth deeper_links.

(** ** Properties of runs *)

(** The events a step of a node leaves that neither change the store nor
    mark an entry or the overall timeout. *)
Definition plain (ev : Event) : Prop :=
  match ev with
  | EvCall _ => True
  | EvLog LogOverallTimeout => False
  | EvLog _ => True
  | _ => False
  end.

(** The messages logged outside a node's own work: by a loop over
    candidates, by a handler and by the final step. *)
Definition after_work (m : LogMsg) : Prop :=
  match m with
  | LogDeeperTimeout _ | LogErrorVisiting _ _ | LogCritical _
  | LogScraped _ | LogNoJobs | LogCsvError _ => True
  | _ => False
  end.

(** The ledger and the set of saved addresses agree, and no address is
    saved twice. *)
Definition ledger_ok (c : Crawl) : Prop :=
  NoDup (url <$> job_results c) ∧ unique_urls c = list_to_set (url <$> job_results c).

(** The three updates the program makes to the store. *)
Inductive crawl_step (old new : Crawl) : Prop :=
| step_visit (link : string) :
    link ∉ visited_links old →
    new = {| visited_links := {[link]} ∪ visited_links old; unique_urls := unique_urls old;
             job_results := job_results old; last_save_time := last_save_time old |} →
    crawl_step old new
| step_save (jd : Job) :
    url jd ∉ unique_urls old →
    new = {| visited_links := visited_links old; unique_urls := {[url jd]} ∪ unique_urls old;
             job_results := job_results old ++ [jd]; last_save_time := last_save_time old |} →
    crawl_step old new
| step_stamp (t : Z) :
    new = {| visited_links := visited_links old; unique_urls := unique_urls old;
             job_results := job_results old; last_save_time := t |} →
    crawl_step old new.

(** Every store of a history (most recent first) comes from the one before
    it by one update. *)
Fixpoint steps_ok (h : list Crawl) : Prop :=
  match h with
  | new :: rest =>
      match rest with old :: _ => crawl_step old new | [] => True end ∧ steps_ok rest
  | [] => True
  end.

(** The addresses the explorer was entered on, most recent first. *)
Fixpoint entered (tr : list Event) : list string :=
  match tr with
  | EvEnter a _ :: rest => a :: entered rest
  | _ :: rest => entered rest
  | [] => []
  end.

(** Every entry of the explorer comes right after the [visited_links.add]
    of its address. *)
Fixpoint sched_ok (tr : list Event) : Prop :=
  match tr with
  | EvEnter a _ :: rest =>
      match rest with EvVisit b :: _ => a = b | _ => False end ∧ sched_ok rest
  | _ :: rest => sched_ok rest
  | [] => True
  end.

(** The addresses the root loop entered the explorer on, most recent first. *)
Fixpoint roots_entered (tr : list Event) : list string :=
  match tr with
  | EvEnter a O :: rest => a :: roots_entered rest
  | _ :: rest => roots_entered rest
  | [] => []
  end.

(** The event of line 79, "Overall timeout reached". *)
Abbreviation kill := (EvLog LogOverallTimeout).

(** The events of a node's own work: the page is loaded, read, a record
    is saved. *)
Definition node_work (ev : Event) : Prop :=
  match ev with
  | EvCall (c_goto _) | EvCall c_wait_for_function | EvCall (c_wait_for_timeout _)
  | EvCall c_inner_text | EvCall c_eval_on_selector_all | EvCall c_shuffle
  | EvCall (c_sleep _) => True
  | EvLog (LogVisiting _ _) | EvLog (LogSaved _ _) | EvLog (LogNotSaved _ _)
  | EvLog (LogPageLoadTimeout _) | EvLog (LogExtractFailed _) | EvLog (LogFindFailed _)
  | EvLog LogRootStart => True
  | EvSave _ => True
  | _ => False
  end.

(** No event of a node's work has the overall timeout before it. *)
Fixpoint calm (tr : list Event) : Prop :=
  match tr with
  | ev :: rest => (node_work ev → kill ∉ rest) ∧ calm rest
  | [] => True
  end.

(** [floor w] bounds from below every reading of the clock made later:
    a reading is at least the floor and lifts the floor to itself, and the
    calls that end a run (closing the session, writing the file) do not
    lower it. *)
Record SteadyClock {W : Type} (env : Env W) (floor : W -> Z) : Prop := {
  sc_time : ∀ w, (floor w ≤ (env_time env w).1) ∧ ((env_time env w).1 ≤ floor (env_time env w).2);
  sc_session : ∀ op w, floor w ≤ floor (env_session env op w).2;
  sc_to_csv : ∀ df filename w, floor w ≤ floor (env_to_csv env df filename w).2
}.

Section Properties.

Context {W : Type}.

(** [hoare P m Q]: from a state in [P], [m] ends in a state in [Q],
    whatever its outcome. *)
Definition hoare {A} (P : @St W -> Prop) (m : M A) (Q : @St W -> Prop) : Prop :=
  ∀ s, P s → Q (m s).2.

(** The invariant will hold once the explorer has been entered. *)
Definition entering (I : @St W -> Prop) (link : string) (depth : nat) (s : @St W) : Prop :=
  I (st_event (world s) (EvEnter link depth) s).

(** The stores a run has gone through, most recent first. *)
Definition history (s : @St W) : list Crawl := crawl s :: past s.

(** Every store came from the one before by one update of the program, and
    in every store the ledger agrees with the set of saved addresses. *)
Definition history_ok (s : @St W) : Prop :=
  steps_ok (history s) ∧ Forall ledger_ok (history s).

(** The explorer was entered right after its address was marked visited,
    never twice on one address, and only on addresses now in
    [visited_links]. *)
Definition schedule_ok (s : @St W) : Prop :=
  sched_ok (trace s) ∧ NoDup (entered (trace s)) ∧
  ∀ a, a ∈ entered (trace s) → a ∈ visited_links (crawl s).

(** Everything state [s0] had is still there in state [s]: the stores gone
    through, the visited and saved addresses, the records in their order. *)
Definition keeps (s0 s : @St W) : Prop :=
  history s0 `suffix_of` history s ∧
  visited_links (crawl s0) ⊆ visited_links (crawl s) ∧
  unique_urls (crawl s0) ⊆ unique_urls (crawl s) ∧
  job_results (crawl s0) `prefix_of` job_results (crawl s).

(** The overall check fires on every reading still to come. *)
Definition expired (cfg : Config) (floor : W -> Z) (s : @St W) : Prop :=
  floor (world s) - last_save_time (crawl s) > TIMEOUT_TOTAL_SECONDS cfg.

(** Once the overall timeout has been logged it stays passed, and no node
    has worked after it. *)
Definition latched (cfg : Config) (floor : W -> Z) (s : @St W) : Prop :=
  (kill ∈ trace s → expired cfg floor s) ∧ calm (trace s).

(** The overall timeout has not been logged yet. *)
Definition unfired (s : @St W) : Prop :=
  (kill ∉ trace s) ∧ calm (trace s).

End Properties.



(** *** Sites with finitely many addresses *)

(** Every address the site ever lists is in [U], and shuffling a list
    brings in no address that was not in it. *)
Record FiniteSite {W : Type} (env : Env W) (U : gset string) : Prop := {
  fs_links : ∀ w links w',
    env_eval_on_selector_all env w = (Ok links, w') → ∀ l, l ∈ links → l ∈ U;
  fs_shuffle : ∀ l w a, a ∈ (env_shuffle env l w).1 → a ∈ l
}.

(** The addresses of [U] not yet visited. *)
Definition unvisited {W : Type} (U : gset string) (s : @St W) : nat :=
  size (U ∖ visited_links (crawl s)).

(** No call of the browser session raises. *)
Definition session_ok {W : Type} (env : Env W) : Prop :=
  ∀ op w, (env_session env op w).1 = Ok tt.

(** The three addresses of [broken_child_site]. *)
Definition abc : gset string := {["a"; "b"; "c"]}.

(** The session calls that open the browser. *)
Definition startup (op : SessionOp) : Prop :=
  match op with
  | PlaywrightStart | ChromiumLaunch | NewContext | NewPage => True
  | _ => False
  end.

(** A site on which no page can be loaded. *)
Definition unreachable_site (a : string) : Sim.Page := Sim.broken.


(** The simulated web with a browser context that cannot be closed. *)
Definition stuck_context_env (site : string -> Sim.Page) : Env Sim.World :=
  {| env_time := env_time (Sim.env site id);
     env_goto := env_goto (Sim.env site id);
     env_wait_for_function := env_wait_for_function (Sim.env site id);
     env_wait_for_timeout := env_wait_for_timeout (Sim.env site id);
     env_inner_text := env_inner_text (Sim.env site id);
     env_page_url := env_page_url (Sim.env site id);
     env_eval_on_selector_all := env_eval_on_selector_all (Sim.env site id);
     env_shuffle := env_shuffle (Sim.env site id);
     env_sleep := env_sleep (Sim.env site id);
     env_session := λ op w,
       match op with
       | ContextClose => (Err (Error "Target closed"), w)
       | _ => (Ok tt, w)
       end;
     env_to_csv := env_to_csv (Sim.env site id) |}.

(** The clock reading taken right after the most recent save, or the one
    the run started with when nothing has been saved. *)
Fixpoint progress_reading (tr : list Event) : option Z :=
  match tr with
  | [] => None
  | ev :: rest =>
      match ev, rest with
      | EvCall (c_time t), [] => Some t
      | EvCall (c_time t), EvSave _ :: _ => Some t
      | _, _ => progress_reading rest
      end
  end.

(** The last event is not the append of a record. *)
Definition settled (tr : list Event) : Prop :=
  match tr with
  | EvSave _ :: _ => False
  | _ => True
  end.

(** How many more times the explorer has been entered than a record has
    been saved. *)
Definition spare {W : Type} (s : @St W) : Z :=
  Z.of_nat (length (entered (trace s))) - Z.of_nat (length (job_results (crawl s))).

(** The explorer has been entered at least [k] more times than a record
    has been saved. *)
Definition room {W : Type} (k : Z) (s : @St W) : Prop := k ≤ spare s.

(** The records the events of a trace (most recent first) saved, in the
    order they were saved. *)
Fixpoint saved (tr : list Event) : list Job :=
  match tr with
  | EvSave jd :: rest => saved rest ++ [jd]
  | _ :: rest => saved rest
  | [] => []
  end.

(** Every root branch (an entry at depth 0) was started with fewer than
    [cap] records saved. *)
Fixpoint roots_gated (cap : nat) (tr : list Event) : Prop :=
  match tr with
  | EvEnter _ O :: rest => (length (saved rest) < cap)%nat ∧ roots_gated cap rest
  | _ :: rest => roots_gated cap rest
  | [] => True
  end.

(** The ledger holds the records the events saved, and every root branch
    was started below the cap. *)
Definition cap_ok {W : Type} (cfg : Config) (s : @St W) : Prop :=
  job_results (crawl s) = saved (trace s) ∧ roots_gated (MAX_RECORDS cfg) (trace s).

(** Scenario E: the seed lists five links, and page ["a"] lists one more. *)
Definition five_roots_site (a : string) : Sim.Page :=
  if decide (a = root) then Sim.page "root" a ["a"; "b"; "c"; "d"; "e"]
  else if decide (a = "a") then Sim.page "A" "a" ["a1"]
  else Sim.page a a [].

(** ** Reasoning about runs *)

Section Logic.

Context {W : Type} (env : Env W) (cfg : Config).

Lemma hoare_weaken {A} (P P' Q Q' : @St W -> Prop) (m : M A) :
  hoare P' m Q' → (∀ s, P s → P' s) → (∀ s, Q' s → Q s) → hoare P m Q.
Proof. intros H HP HQ s Hs. apply HQ, H, HP, Hs. Qed.

Lemma hoare_ret {A} (P : @St W -> Prop) (a : A) : hoare P (mret a) P.
Proof. intros s Hs. exact Hs. Qed.

Lemma hoare_bind {A B} (R P Q : @St W -> Prop) (m : M A) (k : A -> M B) :
  hoare P m R → (∀ a, hoare R (k a) Q) → (∀ s, R s → Q s) → hoare P (m ≫= k) Q.
Proof.
  intros Hm Hk HRQ s Hs. specialize (Hm s Hs).
  unfold mbind, M_bind. destruct (m s) as [[a | e |] s1]; simpl in *; auto.
  by apply Hk.
Qed.

Lemma hoare_seq {A B} (I : @St W -> Prop) (m : M A) (k : A -> M B) :
  hoare I m I → (∀ a, hoare I (k a) I) → hoare I (m ≫= k) I.
Proof. intros Hm Hk. apply (hoare_bind I); auto. Qed.

Lemma hoare_try_except {A} (R P Q : @St W -> Prop) (body : M A) (handler : exn -> M A) :
  hoare P body R → (∀ e, hoare R (handler e) Q) → (∀ s, R s → Q s) →
  hoare P (try_except body handler) Q.
Proof.
  intros Hb Hh HRQ s Hs. specialize (Hb s Hs).
  unfold try_except. destruct (body s) as [[a | e |] s1]; simpl in *; auto.
  by apply Hh.
Qed.

Lemma hoare_try_finally {A} (R P Q : @St W -> Prop) (body : M A) (fin : M unit) :
  hoare P body R → hoare R fin Q → (∀ s, R s → Q s) →
  hoare P (try_finally body fin) Q.
Proof.
  intros Hb Hf HRQ s Hs. specialize (Hb s Hs).
  unfold try_finally. destruct (body s) as [[a | e |] s1]; simpl in *; auto;
    specialize (Hf s1 Hb); destruct (fin s1) as [[[] | e' |] s2]; simpl in *; auto.
Qed.

Lemma hoare_ifM {A} (P Q : @St W -> Prop) (c : St -> bool) (m1 m2 : M A) :
  hoare (λ s, P s ∧ c s = true) m1 Q → hoare (λ s, P s ∧ c s = false) m2 Q →
  hoare P (ifM c m1 m2) Q.
Proof.
  intros H1 H2 s Hs. unfold ifM. destruct (c s) eqn:Hc; [apply H1 | apply H2]; auto.
Qed.

Lemma hoare_emit (P Q : @St W -> Prop) (ev : Event) :
  (∀ s, P s → Q (st_event (world s) ev s)) → hoare P (emit ev) Q.
Proof. intros H s Hs. by apply H. Qed.

Lemma hoare_mutate (P Q : @St W -> Prop) (f : Crawl -> Crawl) :
  (∀ s, P s → Q (st_store (f (crawl s)) s)) → hoare P (mutate f) Q.
Proof. intros H s Hs. by apply H. Qed.

Lemma hoare_call {A} (P Q : @St W -> Prop) (c : Call) (op : W -> Res A * W) :
  (∀ s w, P s → Q (st_event w (EvCall c) s)) → hoare P (call c op) Q.
Proof. intros H s Hs. unfold call. destruct (op (world s)) as [r w]. by apply H. Qed.

(** *** Steps of a node under an invariant that plain events keep *)

Section Components.

Context (I : @St W -> Prop).
Hypothesis I_plain : ∀ s w ev, plain ev → I s → I (st_event w ev s).

Lemma call_inv {A} (c : Call) (op : W -> Res A * W) : hoare I (call c op) I.
Proof. apply hoare_call. intros s w Hs. by apply I_plain. Qed.

Lemma log_inv (m : LogMsg) : m ≠ LogOverallTimeout → hoare I (log m) I.
Proof.
  intros Hm. apply hoare_emit. intros s Hs. apply I_plain; [|done].
  by destruct m.
Qed.

Lemma time_time_inv : hoare I (time_time env) I.
Proof.
  intros s Hs. unfold time_time. destruct (env_time env (world s)) as [t w].
  by apply I_plain.
Qed.

Lemma random_shuffle_inv (l : list string) : hoare I (random_shuffle env l) I.
Proof.
  intros s Hs. unfold random_shuffle. destruct (env_shuffle env l (world s)) as [l' w].
  by apply I_plain.
Qed.

Lemma sleep_inv (secs : Z) : hoare I (sleep env secs) I.
Proof. intros s Hs. by apply I_plain. Qed.

Lemma page_url_inv : hoare I (page_url env) I.
Proof. intros s Hs. exact Hs. Qed.

Lemma raise_inv {A} (e : exn) : hoare I (raise (A := A) e) I.
Proof. intros s Hs. exact Hs. Qed.

Lemma write_to_csv_inv (data : list Job) (filename : string) :
  hoare I (write_to_csv env data filename) I.
Proof.
  apply (hoare_try_except I); [apply call_inv | | done].
  intros e. by apply log_inv.
Qed.

Lemma wait_for_page_load_inv : hoare I (wait_for_page_load env cfg) I.
Proof.
  apply (hoare_try_except I); [| intros e; by apply log_inv | done].
  apply hoare_seq; [apply call_inv | intros _; apply call_inv].
Qed.

Lemma retry_from_inv {A} (more : nat) (attempt : Z) (fn : M A) :
  hoare I fn I → hoare I (retry_from env more attempt fn) I.
Proof.
  intros Hfn. revert attempt. induction more as [| more IH]; intros attempt; simpl;
    (apply (hoare_try_except I); [done | | done]); intros e.
  - apply raise_inv.
  - apply hoare_seq; [apply sleep_inv | intros _; apply IH].
Qed.

Lemma extract_job_data_inv : hoare I (extract_job_data env cfg) I.
Proof.
  apply retry_from_inv. apply (hoare_try_except I); [| | done].
  - apply hoare_seq; [apply wait_for_page_load_inv | intros _].
    apply hoare_seq; [apply call_inv | intros t].
    apply hoare_seq; [apply page_url_inv | intros u]. apply hoare_ret.
  - intros e. apply hoare_seq; [by apply log_inv | intros _; apply hoare_ret].
Qed.

Lemma find_job_links_inv : hoare I (find_job_links env cfg) I.
Proof.
  apply retry_from_inv. apply (hoare_try_except I); [| | done].
  - apply hoare_seq; [apply wait_for_page_load_inv | intros _].
    apply hoare_seq; [apply call_inv | intros links]. apply hoare_ret.
  - intros e. apply hoare_seq; [by apply log_inv | intros _; apply hoare_ret].
Qed.

End Components.

(** *** The traversal under an invariant

    [I] holds along the whole run; [J], at least as strong, holds while a
    node does its own work, from the overall check it passed to the start
    of its loop over the candidates. *)

Section Traversal.

Context (I J : @St W -> Prop).
Hypothesis J_I : ∀ s, J s → I s.
Hypothesis J_plain : ∀ s w ev, plain ev → J s → J (st_event w ev s).
Hypothesis J_save : ∀ s jd,
  J s → url jd ∉ unique_urls (crawl s) → J (save_job jd s).2.
Hypothesis J_last : ∀ s t, J s → J (set_last_save_time t s).2.
Hypothesis I_time : ∀ s, I s → I (time_time env s).2.
Hypothesis I_kill : ∀ s t w,
  I s → env_time env (world s) = (t, w) →
  t - last_save_time (crawl s) > TIMEOUT_TOTAL_SECONDS cfg →
  I (st_event w (EvLog LogOverallTimeout) (st_event w (EvCall (c_time t)) s)).
Hypothesis I_pass : ∀ s t w,
  I s → env_time env (world s) = (t, w) →
  ¬ t - last_save_time (crawl s) > TIMEOUT_TOTAL_SECONDS cfg →
  J (st_event w (EvCall (c_time t)) s).
Hypothesis I_log : ∀ s m, after_work m → I s → I (st_event (world s) (EvLog m) s).
Hypothesis I_visit : ∀ s link,
  I s → link ∉ visited_links (crawl s) → I (visited_add link s).2.
Hypothesis I_enter : ∀ s link depth,
  I s → link ∉ visited_links (crawl s) →
  I (st_event (world s) (EvEnter link depth) (visited_add link s).2).
Hypothesis I_session : ∀ s op, I s → I (session env op s).2.
Hypothesis I_to_csv : ∀ s df filename, I s → I (to_csv env df filename s).2.

Lemma record_job_inv depth link job_data :
  hoare J (record_job env depth link job_data) J.
Proof.
  destruct job_data as [jd |]; simpl; [| by apply log_inv].
  apply hoare_ifM.
  - eapply hoare_weaken; [by apply (log_inv J J_plain (LogNotSaved depth link)) | | done].
    by intros s [Hs _].
  - apply (hoare_bind J); [| | done].
    + intros s [Hs Hc]. apply J_save; [done |].
      by apply bool_decide_eq_false in Hc.
    + intros _. apply hoare_seq; [by apply time_time_inv | intros t].
      apply hoare_seq; [| intros _; by apply log_inv].
      intros s Hs. by apply J_last.
Qed.

Lemma schedule_inv (explore : string -> nat -> M unit) link depth :
  (∀ l d, hoare (entering I l d) (explore l d) I) →
  hoare I
    (ifM (λ s, bool_decide (link ∈ visited_links (crawl s)))
       (mret tt) (visited_add link;; explore link depth)) I.
Proof.
  intros Hex. apply hoare_ifM.
  - intros s [Hs _]. exact Hs.
  - apply (hoare_bind (λ s, I s ∧ entering I link depth s)).
    + intros s [Hs Hc]. apply bool_decide_eq_false in Hc. split.
      * by apply I_visit.
      * exact (I_enter s link depth Hs Hc).
    + intros _. eapply hoare_weaken; [apply Hex | | done]. by intros s [_ Hs].
    + by intros s [Hs _].
Qed.

Lemma deeper_loop_inv (explore : string -> nat -> M unit) start depth links :
  (∀ l d, hoare (entering I l d) (explore l d) I) →
  hoare I (deeper_loop env cfg explore start depth links) I.
Proof.
  intros Hex. induction links as [| link rest IH]; simpl; [apply hoare_ret |].
  apply hoare_seq; [exact I_time | intros now].
  case_bool_decide; [apply hoare_emit; intros s Hs; by apply I_log |].
  apply hoare_seq; [by apply schedule_inv | intros _; apply IH].
Qed.

Lemma explore_node_inv (explore : string -> nat -> M unit) link depth :
  (∀ l d, hoare (entering I l d) (explore l d) I) →
  hoare J (explore_node env cfg explore link depth) I.
Proof.
  intros Hex. apply (hoare_try_except I); [| | done].
  2: { intros e. apply hoare_emit. intros s Hs. by apply I_log. }
  apply (hoare_bind J); [by apply log_inv | intros _ | done].
  apply (hoare_bind J); [by apply call_inv | intros _ | done].
  apply (hoare_bind J); [by apply extract_job_data_inv | intros job_data | done].
  apply (hoare_bind J); [apply record_job_inv | intros _ | done].
  apply (hoare_bind J); [by apply time_time_inv | intros start | done].
  apply (hoare_bind J); [by apply find_job_links_inv | intros links | done].
  apply (hoare_bind I); [| intros links' | done].
  - eapply hoare_weaken; [by apply (random_shuffle_inv J J_plain) | done | done].
  - by apply deeper_loop_inv.
Qed.

Lemma overall_check_inv (body : M unit) :
  hoare J body I →
  hoare I
    (now ← time_time env;
     ifM (λ s, bool_decide (now - last_save_time (crawl s) > TIMEOUT_TOTAL_SECONDS cfg))
       (log LogOverallTimeout) body) I.
Proof.
  intros Hbody s Hs. unfold mbind, M_bind, time_time.
  destruct (env_time env (world s)) as [t w] eqn:Ht. unfold ifM. simpl.
  case_bool_decide as Hc.
  - by apply I_kill.
  - apply Hbody. by apply I_pass.
Qed.

Lemma process_links_recursively_inv fuel link depth :
  hoare (entering I link depth) (process_links_recursively env cfg fuel link depth) I.
Proof.
  revert link depth. induction fuel as [| fuel IH]; intros link depth; simpl;
    (apply (hoare_bind I); [by apply hoare_emit | intros _ | done]).
  - intros s Hs. exact Hs.
  - apply overall_check_inv. by apply explore_node_inv.
Qed.

Lemma root_loop_inv fuel root_queue : hoare I (root_loop env cfg fuel root_queue) I.
Proof.
  induction root_queue as [| root_link rest IH]; simpl; [apply hoare_ret |].
  apply hoare_ifM; [| by intros s [Hs _]].
  apply (hoare_weaken _ I _ I); [| intros s [Hs _]; exact Hs | intros s Hs; exact Hs].
  apply hoare_seq; [| intros _; apply IH].
  apply schedule_inv. intros l d. apply process_links_recursively_inv.
Qed.

Lemma root_phase_inv fuel : hoare J (root_phase env cfg fuel) I.
Proof.
  apply (hoare_try_finally I); [| | done].
  - apply (hoare_try_except I); [| | done].
    2: { intros e. apply hoare_emit. intros s Hs. by apply I_log. }
    apply (hoare_bind J); [by apply log_inv | intros _ | done].
    apply (hoare_bind J); [by apply call_inv | intros _ | done].
    apply (hoare_bind I); [| intros links | done].
    + eapply hoare_weaken; [by apply (find_job_links_inv J J_plain) | done | done].
    + apply root_loop_inv.
  - apply hoare_seq; [| intros _]; intros s Hs; by apply I_session.
Qed.

Lemma browser_phase_inv fuel : hoare J (browser_phase env cfg fuel) I.
Proof.
  apply (hoare_bind J); [by apply call_inv | intros _ | done].
  apply (hoare_try_finally I); [| intros s Hs; by apply I_session | done].
  do 3 (apply (hoare_bind J); [by apply call_inv | intros _ | done]).
  apply root_phase_inv.
Qed.

Lemma write_to_csv_after data filename : hoare I (write_to_csv env data filename) I.
Proof.
  apply (hoare_try_except I); [intros s Hs; by apply I_to_csv | | done].
  intros e. apply hoare_emit. intros s Hs. by apply I_log.
Qed.

Lemma persist_inv : hoare I (persist env cfg) I.
Proof.
  apply hoare_ifM.
  - apply (hoare_weaken _ I _ I); [| intros s [Hs _]; exact Hs | intros s Hs; exact Hs].
    apply hoare_seq; [by intros s Hs | intros results].
    apply hoare_seq; [| intros _; apply write_to_csv_after].
    apply hoare_emit. intros s Hs. by apply I_log.
  - apply (hoare_weaken _ I _ I); [| intros s [Hs _]; exact Hs | intros s Hs; exact Hs].
    apply hoare_seq; [| intros _; apply write_to_csv_after].
    apply hoare_emit. intros s Hs. by apply I_log.
Qed.

Lemma scrape_jobs_inv2 fuel w :
  (∀ w1 t, J {| world := w1; crawl := fresh_crawl t; past := []; trace := [EvCall (c_time t)] |}) →
  I (scrape_jobs env cfg fuel w).2.
Proof.
  intros Hboot. unfold scrape_jobs.
  apply (hoare_bind I J I (browser_phase env cfg fuel) (λ _, persist env cfg));
    [apply browser_phase_inv | intros _; apply persist_inv | done |].
  unfold boot. destruct (env_time env w) as [t w1]. apply Hboot.
Qed.

End Traversal.

(** The traversal under one invariant that no event of a node's own work
    disturbs. *)
Section Simple.

Context (I : @St W -> Prop).
Hypothesis I_plain : ∀ s w ev, plain ev → I s → I (st_event w ev s).
Hypothesis I_kill : ∀ s, I s → I (st_event (world s) (EvLog LogOverallTimeout) s).
Hypothesis I_visit : ∀ s link,
  I s → link ∉ visited_links (crawl s) → I (visited_add link s).2.
Hypothesis I_enter : ∀ s link depth,
  I s → link ∉ visited_links (crawl s) →
  I (st_event (world s) (EvEnter link depth) (visited_add link s).2).
Hypothesis I_save : ∀ s jd,
  I s → url jd ∉ unique_urls (crawl s) → I (save_job jd s).2.
Hypothesis I_last : ∀ s t, I s → I (set_last_save_time t s).2.

Lemma scrape_jobs_inv fuel w :
  (∀ w1 t, I {| world := w1; crawl := fresh_crawl t; past := []; trace := [EvCall (c_time t)] |}) →
  I (scrape_jobs env cfg fuel w).2.
Proof.
  apply (scrape_jobs_inv2 I I); try done.
  - by apply time_time_inv.
  - intros s t w1 Hs _ _.
    apply (I_kill (st_event w1 (EvCall (c_time t)) s)). by apply I_plain.
  - intros s t w1 Hs _ _. by apply I_plain.
  - intros s m Hm Hs. apply I_plain; [by destruct m | done].
  - intros s op. by apply call_inv.
  - intros s df filename. by apply call_inv.
Qed.

Lemma process_links_recursively_simple_inv fuel link depth :
  hoare (λ s, I (st_event (world s) (EvEnter link depth) s))
    (process_links_recursively env cfg fuel link depth) I.
Proof.
  apply (process_links_recursively_inv I I); try done.
  - by apply time_time_inv.
  - intros s t w1 Hs _ _.
    apply (I_kill (st_event w1 (EvCall (c_time t)) s)). by apply I_plain.
  - intros s t w1 Hs _ _. by apply I_plain.
  - intros s m Hm Hs. apply I_plain; [by destruct m | done].
Qed.

End Simple.

Lemma timeline_split (s : @St W) before ev after :
  timeline s = before ++ ev :: after → trace s = reverse after ++ ev :: reverse before.
Proof.
  unfold timeline. intros Heq. apply (f_equal reverse) in Heq.
  rewrite reverse_involutive in Heq. rewrite Heq.
  by rewrite reverse_app, reverse_cons, <- app_assoc.
Qed.

End Logic.

(** ** The store over a run *)

Section Store.

Context {W : Type} (env : Env W) (cfg : Config).

Lemma ledger_ok_save c jd :
  ledger_ok c → url jd ∉ unique_urls c →
  ledger_ok {| visited_links := visited_links c; unique_urls := {[url jd]} ∪ unique_urls c;
               job_results := job_results c ++ [jd]; last_save_time := last_save_time c |}.
Proof.
  intros [Hnd Heq] Hnew. split; simpl.
  - rewrite fmap_app. apply NoDup_app. split_and!; [done | | apply NoDup_singleton].
    intros u Hu Hu'. apply list_elem_of_singleton in Hu'. subst u.
    apply Hnew. rewrite Heq. by apply elem_of_list_to_set.
  - rewrite fmap_app, list_to_set_app_L, Heq. simpl.
    rewrite (union_empty_r_L {[url jd]}). apply (comm_L (∪)).
Qed.

Lemma history_ok_run fuel w : history_ok (scrape_jobs env cfg fuel w).2.
Proof.
  apply (scrape_jobs_inv env cfg history_ok).
  - intros s w1 ev _ Hs. exact Hs.
  - intros s Hs. exact Hs.
  - intros s link [Hst Hl] Hnew. split.
    + split; [| exact Hst]. by eapply step_visit.
    + constructor; [| exact Hl]. by inversion Hl.
  - intros s link depth [Hst Hl] Hnew. split.
    + split; [| exact Hst]. by eapply step_visit.
    + constructor; [| exact Hl]. by inversion Hl.
  - intros s jd [Hst Hl] Hnew. split.
    + split; [| exact Hst]. by eapply step_save.
    + constructor; [| exact Hl]. apply ledger_ok_save; [by inversion Hl | done].
  - intros s t [Hst Hl]. split.
    + split; [| exact Hst]. by eapply step_stamp.
    + constructor; [| exact Hl]. by inversion Hl.
  - intros w1 t. split; [done |]. constructor; [| constructor].
    split; [constructor | done].
Qed.

Lemma steps_ok_adjacent h1 new old h2 :
  steps_ok (h1 ++ new :: old :: h2) → crawl_step old new.
Proof.
  induction h1 as [| c h1 IH]; simpl.
  - by intros [H _].
  - intros [_ H]. by apply IH.
Qed.

Lemma crawl_step_visited old new :
  crawl_step old new → visited_links old ⊆ visited_links new.
Proof. intros [link _ -> | jd _ -> | t ->]; simpl; set_solver. Qed.

Lemma steps_ok_tail c h : steps_ok (c :: h) → steps_ok h.
Proof. by intros [_ H]. Qed.

Lemma steps_ok_head_visited h c j older :
  steps_ok (c :: h) → (c :: h) !! j = Some older →
  visited_links older ⊆ visited_links c.
Proof.
  revert c j. induction h as [| c' h IH]; intros c j Hst Hj.
  - destruct j as [| j]; simpl in Hj; [| done]. by injection Hj as ->.
  - destruct j as [| j]; simpl in Hj; [by injection Hj as -> |].
    destruct Hst as [Hstep Hst].
    transitivity (visited_links c'); [by apply (IH c' j) | by apply crawl_step_visited].
Qed.

Lemma steps_ok_visited h i j newer older :
  steps_ok h → h !! i = Some newer → h !! j = Some older → (i ≤ j)%nat →
  visited_links older ⊆ visited_links newer.
Proof.
  revert i j. induction h as [| c h IH]; intros i j Hst Hi Hj Hij; [done |].
  destruct i as [| i].
  - simpl in Hi. injection Hi as ->. by eapply steps_ok_head_visited.
  - destruct j as [| j]; [lia |]. simpl in Hi, Hj.
    apply (IH i j); [by eapply steps_ok_tail | done | done | lia].
Qed.

Lemma schedule_ok_run fuel w : schedule_ok (scrape_jobs env cfg fuel w).2.
Proof.
  apply (scrape_jobs_inv env cfg schedule_ok).
  - intros s w1 ev Hev Hs. destruct ev as [c | m | | |]; try done.
  - intros s Hs. exact Hs.
  - intros s link (Hsc & Hnd & Hin) Hnew. split_and!; simpl; [done | done |].
    intros a Ha. apply elem_of_union_r. by apply Hin.
  - intros s link depth (Hsc & Hnd & Hin) Hnew. split_and!; simpl.
    + done.
    + apply NoDup_cons. split; [| done]. intros Ha. by apply Hnew, Hin.
    + intros a Ha. apply elem_of_cons in Ha as [-> | Ha]; [set_solver |].
      apply elem_of_union_r. by apply Hin.
  - intros s jd Hs _. exact Hs.
  - intros s t Hs. exact Hs.
  - intros w1 t. split_and!; simpl; [done | constructor | intros a Ha; by apply elem_of_nil in Ha].
Qed.

Lemma sched_ok_before later a d earlier :
  sched_ok (later ++ EvEnter a d :: earlier) → ∃ e, earlier = EvVisit a :: e.
Proof.
  induction later as [| ev later IH]; simpl.
  - intros [H _]. destruct earlier as [| [| | | b |] e]; try done. subst. by exists e.
  - destruct ev; try done. intros [_ H]. by apply IH.
Qed.

End Store.

(** ** The overall timeout *)

Section Overall.

Context {W : Type} (env : Env W) (cfg : Config) (floor : W -> Z).
Hypothesis steady : SteadyClock env floor.

Lemma latched_event s w ev :
  ¬ node_work ev → ev ≠ kill → floor (world s) ≤ floor w →
  latched cfg floor s → latched cfg floor (st_event w ev s).
Proof.
  intros Hw Hk Hf [He Hc]. split; simpl.
  - intros Hin. apply elem_of_cons in Hin as [Heq | Hin]; [done |].
    specialize (He Hin). unfold expired in *. simpl. lia.
  - split; [done | exact Hc].
Qed.

Lemma latched_run fuel w : latched cfg floor (scrape_jobs env cfg fuel w).2.
Proof.
  apply (scrape_jobs_inv2 env cfg (latched cfg floor) unfired).
  - intros s [Hk Hc]. by split.
  - intros s w1 ev Hev [Hk Hc]. split; simpl.
    + intros Hin. apply elem_of_cons in Hin as [Heq | Hin]; [by subst ev | done].
    + by split.
  - intros s jd [Hk Hc] _. split; simpl.
    + intros Hin. apply elem_of_cons in Hin as [? | Hin]; done.
    + by split.
  - intros s t Hs. exact Hs.
  - intros s Hs. unfold time_time.
    pose proof (sc_time env floor steady (world s)) as [H1 H2].
    destruct (env_time env (world s)) as [t w1]. simpl in *.
    apply latched_event; [by intros [] | done | lia | done].
  - intros s t w1 [Hk Hc] Ht Hfire.
    pose proof (sc_time env floor steady (world s)) as [H1 H2].
    rewrite Ht in H1, H2. simpl in *. split; simpl.
    + intros _. unfold expired. simpl. lia.
    + split_and!; [by intros [] | by intros [] | done].
  - intros s t w1 [Hk Hc] Ht Hpass.
    pose proof (sc_time env floor steady (world s)) as [H1 H2].
    rewrite Ht in H1, H2. simpl in *. split; simpl.
    + intros Hin. apply elem_of_cons in Hin as [? | Hin]; [done |].
      specialize (Hk Hin). unfold expired in Hk. lia.
    + split; [by intros [] | done].
  - intros s m Hm Hs.
    apply latched_event; [intros Hw; destruct m; simpl in *; done | destruct m; simpl in Hm; done | done | done].
  - intros s link Hs _. destruct Hs as [Hk Hc]. split; simpl.
    + intros Hin. apply elem_of_cons in Hin as [? | Hin]; [done |]. by apply Hk.
    + split; [by intros [] | done].
  - intros s link depth Hs _. destruct Hs as [Hk Hc]. split; simpl.
    + intros Hin. apply elem_of_cons in Hin as [? | Hin]; [done |].
      apply elem_of_cons in Hin as [? | Hin]; [done |]. by apply Hk.
    + split_and!; [by intros [] | by intros [] | done].
  - intros s op Hs. unfold session, call.
    pose proof (sc_session env floor steady op (world s)) as H1.
    destruct (env_session env op (world s)) as [r w1]. simpl in *.
    apply latched_event; [by intros [] | done | done | done].
  - intros s df filename Hs. unfold to_csv, call.
    pose proof (sc_to_csv env floor steady df filename (world s)) as H1.
    destruct (env_to_csv env df filename (world s)) as [r w1]. simpl in *.
    apply latched_event; [by intros [] | done | done | done].
  - intros w1 t. split; simpl.
    + intros Hin. apply elem_of_cons in Hin as [? | Hin]; [done |]. by apply elem_of_nil in Hin.
    + done.
Qed.

Lemma calm_after later earlier :
  calm (later ++ kill :: earlier) → Forall (λ ev, ¬ node_work ev) later.
Proof.
  induction later as [| ev later IH]; simpl; [constructor |].
  intros [Hev Hc]. constructor; [| by apply IH].
  intros Hw. apply (Hev Hw). apply elem_of_app. right. apply elem_of_cons. by left.
Qed.

End Overall.

(** ** What the steps of a node return *)

Section Returns.

Context {W : Type} (env : Env W) (cfg : Config).

Lemma retry_from_returns {A} more attempt (fn : M A) (s : @St W) :
  (∀ e, (fn s).1 ≠ Exc e) → retry_from env more attempt fn s = fn s.
Proof.
  intros Hfn. destruct more; simpl; unfold try_except;
    destruct (fn s) as [[a | e |] s1]; try done; by destruct (Hfn e).
Qed.

(** What [wait_for_page_load] does, by the outcome of the ready wait. *)
Lemma wait_for_page_load_eq s :
  wait_for_page_load env cfg s =
  match env_wait_for_function env (GLOBAL_TIMEOUT cfg) (world s) with
  | (Ok _, w) => try_except (page_wait_for_timeout env 3000)
                   (λ e, log (LogPageLoadTimeout e)) (st_event w (EvCall c_wait_for_function) s)
  | (Err e, w) =>
      (Ret tt, st_event w (EvLog (LogPageLoadTimeout e)) (st_event w (EvCall c_wait_for_function) s))
  end.
Proof.
  unfold wait_for_page_load, try_except, mbind, M_bind, page_wait_for_function, call.
  destruct (env_wait_for_function env (GLOBAL_TIMEOUT cfg) (world s)) as [[[] | e] w]; done.
Qed.

Lemma wait_for_page_load_returns s :
  ∃ s', wait_for_page_load env cfg s = (Ret tt, s').
Proof.
  rewrite wait_for_page_load_eq.
  destruct (env_wait_for_function env (GLOBAL_TIMEOUT cfg) (world s)) as [[[] | e] w];
    [| by eexists].
  unfold try_except, page_wait_for_timeout, call. simpl.
  destruct (env_wait_for_timeout env 3000 w) as [[[] | e] w']; by eexists.
Qed.

Lemma extract_job_data_body_returns s :
  ∃ job_data s', extract_job_data_body env cfg s = (Ret job_data, s').
Proof.
  unfold extract_job_data_body, try_except, mbind, M_bind.
  destruct (wait_for_page_load_returns s) as [s1 ->].
  unfold h1_inner_text, call.
  destruct (env_inner_text env (GLOBAL_TIMEOUT cfg) (world s1)) as [[t | e] w]; by do 2 eexists.
Qed.

Lemma find_job_links_body_returns s :
  ∃ links s', find_job_links_body env cfg s = (Ret links, s').
Proof.
  unfold find_job_links_body, try_except, mbind, M_bind.
  destruct (wait_for_page_load_returns s) as [s1 ->].
  unfold eval_on_selector_all, call.
  destruct (env_eval_on_selector_all env (world s1)) as [[links | e] w]; by do 2 eexists.
Qed.

(** The decorator never sees a failure of [extract_job_data]: its body
    catches every exception itself, so there is one attempt. *)
Lemma extract_job_data_one_attempt s :
  extract_job_data env cfg s = extract_job_data_body env cfg s.
Proof.
  apply retry_from_returns. intros e.
  by destruct (extract_job_data_body_returns s) as (jd & s' & ->).
Qed.

Lemma find_job_links_one_attempt s :
  find_job_links env cfg s = find_job_links_body env cfg s.
Proof.
  apply retry_from_returns. intros e.
  by destruct (find_job_links_body_returns s) as (links & s' & ->).
Qed.

Lemma find_job_links_returns s :
  ∃ links s', find_job_links env cfg s = (Ret links, s').
Proof. rewrite find_job_links_one_attempt. apply find_job_links_body_returns. Qed.

End Returns.

(** ** The claims *)

(** C1: at every point of every run no two records of [job_results] have
    the same address; a record is only appended when its address is not in
    [unique_urls], and that same step adds the address to the set. *)
Theorem C1_ledger_addresses_unique {W : Type} (env : Env W) (cfg : Config) (fuel : nat) (w : W) :
  let s := (scrape_jobs env cfg fuel w).2 in
  Forall (λ c, NoDup (url <$> job_results c)) (history s) ∧
  ∀ h1 new old h2, history s = h1 ++ new :: old :: h2 →
    job_results new = job_results old ∨
    ∃ jd, (url jd ∉ unique_urls old) ∧
          job_results new = job_results old ++ [jd] ∧
          unique_urls new = {[url jd]} ∪ unique_urls old.
Proof.
  destruct (history_ok_run env cfg fuel w) as [Hst Hl]. split.
  - eapply Forall_impl; [exact Hl |]. by intros c [Hc _].
  - intros h1 new old h2 Heq. rewrite Heq in Hst.
    destruct (steps_ok_adjacent _ _ _ _ Hst) as [link _ -> | jd Hnew -> | t ->]; simpl.
    + by left.
    + right. by exists jd.
    + by left.
Qed.

(** C9: at every point of a run the addresses of the records in
    [job_results] are exactly [unique_urls], and the two have the same
    size. *)
Theorem C9_ledger_and_unique_urls_in_lockstep
    {W : Type} (env : Env W) (cfg : Config) (fuel : nat) (w : W) :
  Forall (λ c, list_to_set (url <$> job_results c) = unique_urls c ∧
               length (job_results c) = size (unique_urls c))
    (history (scrape_jobs env cfg fuel w).2).
Proof.
  destruct (history_ok_run env cfg fuel w) as [_ Hl].
  eapply Forall_impl; [exact Hl |]. intros c [Hnd Heq]. split; [done |].
  rewrite Heq, size_list_to_set, length_fmap; done.
Qed.

(** C4: over a whole run [visited_links] only grows; every entry of the
    explorer comes right after its address was added to [visited_links];
    and the explorer is entered at most once on any address. *)
Theorem C4_visited_grows_and_entered_once
    {W : Type} (env : Env W) (cfg : Config) (fuel : nat) (w : W) :
  let s := (scrape_jobs env cfg fuel w).2 in
  (∀ i j newer older, history s !! i = Some newer → history s !! j = Some older →
     (i ≤ j)%nat → visited_links older ⊆ visited_links newer) ∧
  (∀ before a d after, timeline s = before ++ EvEnter a d :: after →
     ∃ before', before = before' ++ [EvVisit a]) ∧
  NoDup (entered (trace s)) ∧
  (∀ a, a ∈ entered (trace s) → a ∈ visited_links (crawl s)).
Proof.
  destruct (history_ok_run env cfg fuel w) as [Hst _].
  destruct (schedule_ok_run env cfg fuel w) as (Hsc & Hnd & Hin).
  split_and!; [| | done | done].
  - intros i j newer older Hi Hj Hij. by eapply steps_ok_visited.
  - intros before a d after Heq.
    apply timeline_split in Heq. rewrite Heq in Hsc.
    apply sched_ok_before in Hsc as [e He].
    exists (reverse e). apply (f_equal reverse) in He.
    by rewrite reverse_involutive, reverse_cons in He.
Qed.

(** *** The record cap *)

Section Cap.

Context {W : Type} (env : Env W).

Lemma bind_ext2 {A B} (m m' : M A) (k k' : A -> M B) (s : @St W) :
  (∀ s0, m s0 = m' s0) → (∀ a s1, k a s1 = k' a s1) → (m ≫= k) s = (m' ≫= k') s.
Proof.
  intros Hm Hk. unfold mbind, M_bind. rewrite Hm.
  destruct (m' s) as [[a | e |] s1]; [apply Hk | done | done].
Qed.

Lemma bind_ext {A B} (m : M A) (k k' : A -> M B) (s : @St W) :
  (∀ a s1, k a s1 = k' a s1) → (m ≫= k) s = (m ≫= k') s.
Proof. by apply bind_ext2. Qed.

Lemma try_except_ext {A} (body body' : M A) (handler : exn -> M A) (s : @St W) :
  (∀ s0, body s0 = body' s0) → try_except body handler s = try_except body' handler s.
Proof. intros Hb. unfold try_except. by rewrite Hb. Qed.

Lemma ifM_ext {A} (c : St -> bool) (m1 m2 m2' : M A) (s : @St W) :
  (∀ s0, m2 s0 = m2' s0) → ifM c m1 m2 s = ifM c m1 m2' s.
Proof. intros Hm. unfold ifM. destruct (c s); [done | apply Hm]. Qed.

Lemma deeper_loop_ignores_cap cfg m explore explore' start depth links s :
  (∀ l d s0, explore' l d s0 = explore l d s0) →
  deeper_loop env (with_MAX_RECORDS m cfg) explore' start depth links s =
  deeper_loop env cfg explore start depth links s.
Proof.
  intros Hex. revert s. induction links as [| link rest IH]; intros s; [done |].
  simpl. apply bind_ext. intros t s1.
  destruct (bool_decide (t - start > TIMEOUT_DEEPER_SECONDS cfg)); [done |].
  apply bind_ext2; [| intros _ s2; apply IH].
  intros s0. apply ifM_ext. intros s2. apply bind_ext. intros _ s3. apply Hex.
Qed.

Lemma process_links_recursively_ignores_cap cfg m fuel link depth s :
  process_links_recursively env (with_MAX_RECORDS m cfg) fuel link depth s =
  process_links_recursively env cfg fuel link depth s.
Proof.
  revert link depth s. induction fuel as [| fuel IH]; intros link depth s; [done |].
  simpl. apply bind_ext. intros _ s1. apply bind_ext. intros t s2.
  apply ifM_ext. intros s3. apply try_except_ext. intros s4.
  unfold explore_node_body.
  do 4 (apply bind_ext; intros ? ?). unfold explore_deeper.
  do 3 (apply bind_ext; intros ? ?).
  apply deeper_loop_ignores_cap. intros l d sx. apply IH.
Qed.

Lemma root_loop_capped cfg fuel root_queue (s : @St W) :
  (MAX_RECORDS cfg ≤ length (job_results (crawl s)))%nat →
  root_loop env cfg fuel root_queue s = (Ret tt, s).
Proof.
  intros Hcap. destruct root_queue as [| root_link rest]; [done |].
  simpl. unfold ifM. rewrite bool_decide_eq_false_2; [done | lia].
Qed.

End Cap.

Section RootCap.

Context {W : Type} (env : Env W) (cfg : Config).

Lemma cap_ok_plain (s : @St W) w ev : plain ev → cap_ok cfg s → cap_ok cfg (st_event w ev s).
Proof. intros Hev [Hj Hg]. by destruct ev as [c | [] | | |]. Qed.

Lemma cap_ok_visit link (s : @St W) : cap_ok cfg s → cap_ok cfg (visited_add link s).2.
Proof. by intros [Hj Hg]. Qed.

Lemma record_job_gated depth link job_data :
  hoare (cap_ok cfg) (record_job env depth link job_data) (cap_ok cfg).
Proof.
  destruct job_data as [jd |]; simpl; [| by apply log_inv; [apply cap_ok_plain |]].
  apply hoare_ifM.
  - intros s [Hs _]. by apply (log_inv (cap_ok cfg) cap_ok_plain (LogNotSaved depth link)).
  - intros s [[Hj Hg] _].
    unfold mbind, M_bind, save_job, mutate, emit, time_time, set_last_save_time, log. simpl.
    destruct (env_time env (world s)) as [t w]. split; simpl; [by rewrite Hj | done].
Qed.

Lemma deeper_loop_gated (explore : string -> nat -> @M W unit) start depth links :
  (∀ l d, hoare (cap_ok cfg) (explore l (S d)) (cap_ok cfg)) →
  hoare (cap_ok cfg) (deeper_loop env cfg explore start depth links) (cap_ok cfg).
Proof.
  intros Hex. induction links as [| link rest IH]; simpl; [apply hoare_ret |].
  apply hoare_seq; [apply time_time_inv, cap_ok_plain | intros t].
  case_bool_decide; [by apply log_inv; [apply cap_ok_plain |] |].
  apply hoare_seq; [| intros _; apply IH].
  apply hoare_ifM; [by intros s [Hs _] |].
  intros s [Hs _]. unfold mbind, M_bind.
  change (visited_add link s) with (Ret tt, (visited_add link s).2).
  by apply Hex, cap_ok_visit.
Qed.

Lemma explore_node_gated (explore : string -> nat -> @M W unit) link depth :
  (∀ l d, hoare (cap_ok cfg) (explore l (S d)) (cap_ok cfg)) →
  hoare (cap_ok cfg) (explore_node env cfg explore link depth) (cap_ok cfg).
Proof.
  intros Hex.
  apply (hoare_try_except (cap_ok cfg));
    [| intros e; by apply log_inv; [apply cap_ok_plain |] | done].
  apply hoare_seq; [by apply log_inv; [apply cap_ok_plain |] | intros _].
  apply hoare_seq; [apply call_inv, cap_ok_plain | intros _].
  apply hoare_seq; [apply extract_job_data_inv, cap_ok_plain | intros job_data].
  apply hoare_seq; [apply record_job_gated | intros _].
  apply hoare_seq; [apply time_time_inv, cap_ok_plain | intros start].
  apply hoare_seq; [apply find_job_links_inv, cap_ok_plain | intros links].
  apply hoare_seq; [apply random_shuffle_inv, cap_ok_plain | intros links'].
  by apply deeper_loop_gated.
Qed.

(** The explorer keeps [cap_ok] when a root entry is made below the cap. *)
Lemma process_links_recursively_gated fuel :
  ∀ link depth,
    hoare (λ s, cap_ok cfg s ∧
                (depth = O → (length (job_results (crawl s)) < MAX_RECORDS cfg)%nat))
      (process_links_recursively env cfg fuel link depth) (cap_ok cfg).
Proof.
  induction fuel as [| fuel IH]; intros link depth; simpl;
    (apply (hoare_bind (cap_ok cfg));
       [apply hoare_emit; intros s [[Hj Hg] Hd]; split; [done |];
        destruct depth as [| d]; [split; [rewrite <- Hj; by apply Hd | done] | done]
       | intros _ | done]).
  - intros s Hs. exact Hs.
  - apply hoare_seq; [apply time_time_inv, cap_ok_plain | intros t].
    apply hoare_ifM.
    + apply hoare_emit. by intros s [[Hj Hg] _].
    + apply (hoare_weaken _ (cap_ok cfg) _ (cap_ok cfg)); [| by intros s [Hs _] | done].
      apply explore_node_gated. intros l d.
      apply (hoare_weaken _ _ _ (cap_ok cfg) _ (IH l (S d))); [| done].
      intros s Hs. by split.
Qed.

Lemma root_loop_gated fuel root_queue :
  hoare (cap_ok cfg) (root_loop env cfg fuel root_queue) (cap_ok cfg).
Proof.
  induction root_queue as [| root_link rest IH]; simpl; [apply hoare_ret |].
  apply hoare_ifM; [| by intros s [Hs _]].
  apply (hoare_bind (cap_ok cfg)); [| intros _; apply IH | done].
  apply hoare_ifM; [by intros s [[Hs _] _] |].
  intros s [[Hs Hcap] _]. apply bool_decide_eq_true in Hcap. unfold mbind, M_bind.
  change (visited_add root_link s) with (Ret tt, (visited_add root_link s).2).
  apply process_links_recursively_gated. split; [by apply cap_ok_visit | done].
Qed.

Lemma scrape_jobs_gated fuel w : cap_ok cfg (scrape_jobs env cfg fuel w).2.
Proof.
  unfold scrape_jobs.
  apply (hoare_seq (cap_ok cfg) (browser_phase env cfg fuel) (λ _, persist env cfg)).
  - apply hoare_seq; [apply call_inv, cap_ok_plain | intros _].
    apply (hoare_try_finally (cap_ok cfg)); [| apply call_inv, cap_ok_plain | done].
    do 3 (apply hoare_seq; [apply call_inv, cap_ok_plain | intros _]).
    apply (hoare_try_finally (cap_ok cfg)); [| | done].
    + apply (hoare_try_except (cap_ok cfg));
        [| intros e; by apply log_inv; [apply cap_ok_plain |] | done].
      apply hoare_seq; [by apply log_inv; [apply cap_ok_plain |] | intros _].
      apply hoare_seq; [apply call_inv, cap_ok_plain | intros _].
      apply hoare_seq; [apply find_job_links_inv, cap_ok_plain | intros links].
      apply root_loop_gated.
    + apply hoare_seq; [| intros _]; apply call_inv, cap_ok_plain.
  - intros _. apply persist_inv.
    + intros s m Hm Hs. apply cap_ok_plain; [by destruct m | done].
    + intros s df filename. apply call_inv, cap_ok_plain.
  - unfold boot. by destruct (env_time env w) as [t w1].
Qed.

End RootCap.

(** In a gated trace the records saved before a root entry are fewer than
    the cap. *)
Lemma roots_gated_split cap newer link older :
  roots_gated cap (newer ++ EvEnter link O :: older) → (length (saved older) < cap)%nat.
Proof.
  induction newer as [| ev newer IH]; simpl.
  - by intros [H _].
  - destruct ev as [c | m | l [| d] | l | jd]; try done. by intros [_ H%IH].
Qed.

(** C2: the cap [MAX_RECORDS] stops the root loop from starting another
    branch once [job_results] has reached it; the explorer never reads it,
    so a branch in flight may save records past the cap until it returns:
    on the chain site one root branch ends with 152 records, the cap being
    150.  In every run the ledger holds the records saved so far, and every
    root branch was started with fewer than [MAX_RECORDS] of them saved;
    with a cap of 1 and five root links, only the first is started, and its
    branch saves a second record. *)
Theorem C2_cap_checked_only_by_root_loop :
  (∀ (W : Type) (env : Env W) cfg fuel root_queue (s : @St W),
     (MAX_RECORDS cfg ≤ length (job_results (crawl s)))%nat →
     root_loop env cfg fuel root_queue s = (Ret tt, s)) ∧
  (∀ (W : Type) (env : Env W) cfg m fuel link depth (s : @St W),
     process_links_recursively env (with_MAX_RECORDS m cfg) fuel link depth s =
     process_links_recursively env cfg fuel link depth s) ∧
  (let r := scrape_jobs (Sim.env chain_site id) source_config 200 Sim.start in
   r.1 = Ret tt ∧
   (MAX_RECORDS source_config < length (job_results (crawl r.2)))%nat ∧
   roots_entered (trace r.2) = ["x"]) ∧
  (∀ (W : Type) (env : Env W) cfg fuel w,
     let s := (scrape_jobs env cfg fuel w).2 in
     job_results (crawl s) = saved (trace s) ∧
     ∀ newer link older,
       trace s = newer ++ EvEnter link O :: older →
       (length (saved older) < MAX_RECORDS cfg)%nat) ∧
  (let r := scrape_jobs (Sim.env five_roots_site id) (with_MAX_RECORDS 1 source_config)
              5 Sim.start in
   r.1 = Ret tt ∧
   roots_entered (trace r.2) = ["a"] ∧
   job_results (crawl r.2) = [mkJob "A" "a"; mkJob "a1" "a1"] ∧
   roots_entered
     (trace (scrape_jobs (Sim.env five_roots_site id) source_config 5 Sim.start).2) =
     ["e"; "d"; "c"; "b"; "a"]).
Proof.
  split_and!.
  - intros W env cfg fuel root_queue s. apply root_loop_capped.
  - intros W env cfg m fuel link depth s. apply process_links_recursively_ignores_cap.
  - vm_compute. split_and!; [done | lia | done].
  - intros W env cfg fuel w s. destruct (scrape_jobs_gated env cfg fuel w) as [Hj Hg].
    split; [done |]. intros newer link older Htr. fold s in Hg. rewrite Htr in Hg.
    by apply roots_gated_split in Hg.
  - vm_compute. done.
Qed.

Lemma C2_cap_witness :
  (let s := (scrape_jobs (Sim.env chain_site id) source_config 200 Sim.start).2 in
   root_loop (Sim.env chain_site id) source_config 1 ["y"] s = (Ret tt, s)) ∧
  (let s := (scrape_jobs (Sim.env five_roots_site id) (with_MAX_RECORDS 1 source_config)
               5 Sim.start).2 in
   (length (saved (drop 37 (trace s))) < 1)%nat).
Proof.
  split.
  - intros s. apply (proj1 C2_cap_checked_only_by_root_loop).
    apply Nat.leb_le. vm_compute. reflexivity.
  - intros s.
    apply (proj2 (proj1 (proj2 (proj2 (proj2 C2_cap_checked_only_by_root_loop)))
                   Sim.World (Sim.env five_roots_site id) (with_MAX_RECORDS 1 source_config)
                   5%nat Sim.start)
             (take 36 (trace s)) "a" (drop 37 (trace s))).
    vm_compute. reflexivity.
Defined.

(** *** The overall timeout *)

Lemma sim_steady site perm : SteadyClock (Sim.env site perm) Sim.sim_now.
Proof. split; simpl; intros; lia. Qed.

(** C3, as the code has it: an explorer entered once the overall timeout
    has passed returns at once, without loading its page or touching the
    store.  Nothing else is aborted, the loops of its callers go on; but
    with a clock that does not run backwards every later entry returns at
    the same check, so once the check has fired the run does none of a
    node's work: no page is loaded or read and no record is saved. *)
Theorem C3_overall_timeout_returns_and_latches
    {W : Type} (env : Env W) (cfg : Config) (floor : W -> Z) :
  SteadyClock env floor →
  (∀ fuel link depth (s : @St W) t w1,
     env_time env (world s) = (t, w1) →
     t - last_save_time (crawl s) > TIMEOUT_TOTAL_SECONDS cfg →
     process_links_recursively env cfg (S fuel) link depth s =
     (Ret tt, st_event w1 kill (st_event w1 (EvCall (c_time t))
                (st_event (world s) (EvEnter link depth) s)))) ∧
  (∀ fuel w before after,
     timeline (scrape_jobs env cfg fuel w).2 = before ++ kill :: after →
     Forall (λ ev, ¬ node_work ev) after).
Proof.
  intros Hsteady. split.
  - intros fuel link depth s t w1 Ht Hlate. simpl.
    unfold mbind, M_bind, emit, time_time, ifM, log. simpl. rewrite Ht. simpl.
    by rewrite bool_decide_eq_true_2.
  - intros fuel w before after Heq. apply timeline_split in Heq.
    destruct (latched_run env cfg floor Hsteady fuel w) as [_ Hcalm].
    rewrite Heq in Hcalm. apply calm_after in Hcalm.
    apply Forall_reverse in Hcalm. by rewrite reverse_involutive in Hcalm.
Qed.

Lemma C3_latch_witness :
  Forall (λ ev, ¬ node_work ev)
    [EvVisit "b"; EvEnter "b" 0; EvCall (c_time 104); kill;
     EvCall (c_session ContextClose); EvCall (c_session BrowserClose);
     EvCall (c_session PlaywrightStop); EvLog LogNoJobs;
     EvCall (c_to_csv (mkDataFrame [] []) "JobResults.csv")].
Proof.
  pose proof (proj2 (C3_overall_timeout_returns_and_latches
    (Sim.env slow_root_site id) source_config Sim.sim_now (sim_steady _ _))) as H.
  apply (H 5%nat Sim.start
    [EvCall (c_time 0); EvCall (c_session PlaywrightStart);
     EvCall (c_session ChromiumLaunch); EvCall (c_session NewContext);
     EvCall (c_session NewPage); EvLog LogRootStart; EvCall (c_goto root);
     EvCall c_wait_for_function; EvCall (c_wait_for_timeout 3000);
     EvCall c_eval_on_selector_all; EvVisit "a"; EvEnter "a" 0; EvCall (c_time 104)]).
  vm_compute. reflexivity.
Defined.

(** The claim as stated fails: after the check has fired on ["a"], the root
    loop still marks ["b"] visited and enters the explorer on it. *)
Lemma C3_explorer_entered_after_timeout :
  ∃ before after,
    timeline (scrape_jobs (Sim.env slow_root_site id) source_config 5 Sim.start).2 =
      before ++ kill :: after ∧
    EvVisit "b" ∈ after ∧ EvEnter "b" 0 ∈ after.
Proof.
  exists
    [EvCall (c_time 0); EvCall (c_session PlaywrightStart);
     EvCall (c_session ChromiumLaunch); EvCall (c_session NewContext);
     EvCall (c_session NewPage); EvLog LogRootStart; EvCall (c_goto root);
     EvCall c_wait_for_function; EvCall (c_wait_for_timeout 3000);
     EvCall c_eval_on_selector_all; EvVisit "a"; EvEnter "a" 0; EvCall (c_time 104)],
    ([EvVisit "b"; EvEnter "b" 0; EvCall (c_time 104); kill;
     EvCall (c_session ContextClose); EvCall (c_session BrowserClose);
     EvCall (c_session PlaywrightStop); EvLog LogNoJobs;
     EvCall (c_to_csv (mkDataFrame [] []) "JobResults.csv")]).
  split_and!.
  - vm_compute. reflexivity.
  - apply elem_of_cons. by left.
  - apply elem_of_cons. right. apply elem_of_cons. by left.
Qed.

(** *** The retry decorator *)

(** C5, on the code: the decorated functions catch every exception
    themselves, so whatever [MAX_RETRY_FAILS] is they make one attempt.  At
    a page whose title cannot be read once and could be read on a second
    attempt, [extract_job_data] does not pause or try again and returns
    [None]; the attempt the decorator was to make next would have returned
    the record. *)
Theorem C5_extract_job_data_gives_up_after_one_failure :
  (∀ (W : Type) (env : Env W) cfg (s : @St W),
     extract_job_data env cfg s = extract_job_data_body env cfg s ∧
     find_job_links env cfg s = find_job_links_body env cfg s) ∧
  (let env := Sim.env (λ a, Sim.page "A" a []) id in
   let r := extract_job_data env source_config (at_page "a" 1) in
   r.1 = Ret None ∧
   timeline r.2 =
     [EvCall c_wait_for_function; EvCall (c_wait_for_timeout 3000); EvCall c_inner_text;
      EvLog (LogExtractFailed (Error "locator"))] ∧
   (extract_job_data_body env source_config r.2).1 = Ret (Some (mkJob "A" "a"))).
Proof.
  split.
  - intros W env cfg s. split.
    + apply extract_job_data_one_attempt.
    + apply find_job_links_one_attempt.
  - vm_compute. done.
Qed.

(** *** The budget of a node's loop *)

Section Deeper.

Context {W : Type} (env : Env W) (cfg : Config).

(** Discovery and shuffling leave the store alone. *)
Lemma discovery_keeps_store (s : @St W) :
  history ((find_job_links env cfg ≫= random_shuffle env) s).2 = history s.
Proof.
  apply (hoare_seq (λ s', history s' = history s) (find_job_links env cfg)
           (random_shuffle env)); [| | done].
  - by apply find_job_links_inv.
  - intros links. by apply random_shuffle_inv.
Qed.

Lemma discovery_returns (s : @St W) :
  ∃ links s', (find_job_links env cfg ≫= random_shuffle env) s = (Ret links, s').
Proof.
  unfold mbind, M_bind. destruct (find_job_links_returns env cfg s) as (links & s1 & ->).
  unfold random_shuffle. destruct (env_shuffle env links (world s1)) as [l' w].
  by do 2 eexists.
Qed.

Lemma explore_deeper_eq explore depth (s : @St W) t0 w0 links s2 :
  env_time env (world s) = (t0, w0) →
  (find_job_links env cfg ≫= random_shuffle env)
    (st_event w0 (EvCall (c_time t0)) s) = (Ret links, s2) →
  explore_deeper env cfg explore depth s = deeper_loop env cfg explore t0 depth links s2.
Proof.
  intros Ht Hd. unfold explore_deeper, mbind, M_bind, time_time in *. rewrite Ht.
  destruct (find_job_links env cfg (st_event w0 (EvCall (c_time t0)) s)) as [[l | e |] s1];
    [| done | done].
  by rewrite Hd.
Qed.

Lemma deeper_loop_cut explore start depth c rest (s : @St W) t w :
  env_time env (world s) = (t, w) → t - start > TIMEOUT_DEEPER_SECONDS cfg →
  deeper_loop env cfg explore start depth (c :: rest) s =
  (Ret tt, st_event w (EvLog (LogDeeperTimeout depth)) (st_event w (EvCall (c_time t)) s)).
Proof.
  intros Ht Hlate. simpl. unfold mbind, M_bind, time_time. rewrite Ht.
  by rewrite bool_decide_eq_true_2.
Qed.

Lemma deeper_loop_go explore start depth c rest (s : @St W) t w :
  env_time env (world s) = (t, w) → ¬ t - start > TIMEOUT_DEEPER_SECONDS cfg →
  c ∉ visited_links (crawl s) →
  deeper_loop env cfg explore start depth (c :: rest) s =
  (visited_add c;; explore c (S depth);;
   deeper_loop env cfg explore start depth rest) (st_event w (EvCall (c_time t)) s).
Proof.
  intros Ht Hok Hnew. simpl. unfold mbind at 1, M_bind at 1, time_time. rewrite Ht.
  rewrite bool_decide_eq_false_2; [| done].
  unfold mbind, M_bind, ifM. simpl. rewrite bool_decide_eq_false_2; [| done].
  by destruct (explore c (S depth) _) as [[[] | e |] s1].
Qed.

Lemma deeper_loop_skip explore start depth c rest (s : @St W) t w :
  env_time env (world s) = (t, w) → ¬ t - start > TIMEOUT_DEEPER_SECONDS cfg →
  c ∈ visited_links (crawl s) →
  deeper_loop env cfg explore start depth (c :: rest) s =
  deeper_loop env cfg explore start depth rest (st_event w (EvCall (c_time t)) s).
Proof.
  intros Ht Hok Hold. simpl. unfold mbind at 1, M_bind at 1, time_time. rewrite Ht.
  rewrite bool_decide_eq_false_2; [| done].
  unfold mbind, M_bind, ifM. simpl. by rewrite bool_decide_eq_true_2.
Qed.

End Deeper.

(** C6, as the code has it: [deeper_start_time] is the clock read before
    the candidates are found and shuffled, so the time discovery takes
    counts against the budget.  The loop then reads the clock before each
    candidate, in shuffled order: past the budget it stops and the rest is
    dropped, neither visited nor entered; within it an unvisited candidate
    is added to [visited_links] and explored at depth + 1, a visited one is
    passed over.  When discovery alone used up the budget, no candidate of
    the node is visited. *)
Theorem C6_deeper_budget_starts_before_discovery
    {W : Type} (env : Env W) (cfg : Config)
    (explore : string -> nat -> M unit) (depth : nat) (s : @St W) :
  ∃ t0 w0 links s2,
    env_time env (world s) = (t0, w0) ∧
    (find_job_links env cfg ≫= random_shuffle env)
      (st_event w0 (EvCall (c_time t0)) s) = (Ret links, s2) ∧
    explore_deeper env cfg explore depth s = deeper_loop env cfg explore t0 depth links s2 ∧
    (∀ c rest s3 t w,
       env_time env (world s3) = (t, w) →
       (t - t0 > TIMEOUT_DEEPER_SECONDS cfg →
        deeper_loop env cfg explore t0 depth (c :: rest) s3 =
        (Ret tt, st_event w (EvLog (LogDeeperTimeout depth))
                   (st_event w (EvCall (c_time t)) s3))) ∧
       (¬ t - t0 > TIMEOUT_DEEPER_SECONDS cfg → c ∉ visited_links (crawl s3) →
        deeper_loop env cfg explore t0 depth (c :: rest) s3 =
        (visited_add c;; explore c (S depth);;
         deeper_loop env cfg explore t0 depth rest) (st_event w (EvCall (c_time t)) s3)) ∧
       (¬ t - t0 > TIMEOUT_DEEPER_SECONDS cfg → c ∈ visited_links (crawl s3) →
        deeper_loop env cfg explore t0 depth (c :: rest) s3 =
        deeper_loop env cfg explore t0 depth rest (st_event w (EvCall (c_time t)) s3))) ∧
    (∀ t1 w1,
       env_time env (world s2) = (t1, w1) → t1 - t0 > TIMEOUT_DEEPER_SECONDS cfg →
       history (explore_deeper env cfg explore depth s).2 = history s).
Proof.
  destruct (env_time env (world s)) as [t0 w0] eqn:Ht.
  destruct (discovery_returns env cfg (st_event w0 (EvCall (c_time t0)) s))
    as (links & s2 & Hd).
  exists t0, w0, links, s2.
  pose proof (explore_deeper_eq env cfg explore depth s t0 w0 links s2 Ht Hd) as Heq.
  split_and!; [done | done | done | |].
  - intros c rest s3 t w Ht3. split_and!.
    + by apply deeper_loop_cut.
    + by apply deeper_loop_go.
    + by apply deeper_loop_skip.
  - intros t1 w1 Ht1 Hlate. rewrite Heq.
    pose proof (discovery_keeps_store env cfg (st_event w0 (EvCall (c_time t0)) s)) as Hk.
    rewrite Hd in Hk. simpl in Hk.
    destruct links as [| c rest]; [done |].
    by rewrite (deeper_loop_cut env cfg explore t0 depth c rest s2 t1 w1).
Qed.

(** The claim as stated fails: on a page that takes fifty seconds to list
    its one link, an unvisited one, the code drops it although no time has
    passed since the candidates were shuffled; had the budget started after
    the shuffle, the link would have been visited. *)
Lemma C6_discovery_time_counts_against_budget :
  let env := Sim.env slow_links_site id in
  let explore := process_links_recursively env source_config 3 in
  bool_decide ("b" ∈ visited_links
    (crawl (explore_deeper_as_claimed env source_config explore 0 (at_page "a" 0)).2)) = true ∧
  bool_decide ("b" ∈ visited_links
    (crawl (explore_deeper env source_config explore 0 (at_page "a" 0)).2)) = false.
Proof. vm_compute. done. Qed.

(** *** A page that is slow to get ready *)

(** C7, as the code has it: when the ready wait of [wait_for_page_load]
    times out, the function returns without making the settle delay (the
    delay follows a ready wait that succeeded), and extraction and link
    discovery go on to read the page as it is.  A failure of [page.goto]
    itself is not tolerated: whatever the page it was on, it ends the
    node. *)
Theorem C7_ready_timeout_tolerated_without_settle_delay
    {W : Type} (env : Env W) (cfg : Config) (s : @St W) :
  (∀ e w,
     env_wait_for_function env (GLOBAL_TIMEOUT cfg) (world s) = (Err e, w) →
     let s1 := st_event w (EvLog (LogPageLoadTimeout e))
                 (st_event w (EvCall c_wait_for_function) s) in
     wait_for_page_load env cfg s = (Ret tt, s1) ∧
     extract_job_data env cfg s =
       try_except
         (t ← h1_inner_text env cfg; u ← page_url env; mret (Some (mkJob t u)))
         (λ e', log (LogExtractFailed e');; mret None) s1 ∧
     find_job_links env cfg s =
       try_except
         (links ← eval_on_selector_all env; mret links)
         (λ e', log (LogFindFailed e');; mret []) s1) ∧
  (∀ explore link depth e' w',
     env_goto env link (GLOBAL_TIMEOUT cfg) (world s) = (Err e', w') →
     explore_node env cfg explore link depth s =
     (Ret tt, st_event w' (EvLog (LogErrorVisiting depth link))
                (st_event w' (EvCall (c_goto link))
                   (st_event (world s) (EvLog (LogVisiting depth link)) s)))).
Proof.
  split.
  - intros e w Hw s1.
    assert (Hload : wait_for_page_load env cfg s = (Ret tt, s1)).
    { rewrite wait_for_page_load_eq. by rewrite Hw. }
    split_and!.
    + done.
    + rewrite extract_job_data_one_attempt.
      unfold extract_job_data_body, try_except, mbind at 1, M_bind at 1. by rewrite Hload.
    + rewrite find_job_links_one_attempt.
      unfold find_job_links_body, try_except, mbind at 1, M_bind at 1. by rewrite Hload.
  - intros explore link depth e' w' Hg.
    unfold explore_node, explore_node_body, try_except, mbind, M_bind, log, emit,
      page_goto, call. simpl. by rewrite Hg.
Qed.

Lemma C7_never_ready_witness :
  (let env := Sim.env never_ready_site id in
   extract_job_data env source_config (at_page "a" 0) =
     (Ret (Some (mkJob "a" "a")),
      st_event (Sim.mkWorld 30 "a" 0) (EvCall c_inner_text)
        (st_event (Sim.mkWorld 30 "a" 0)
           (EvLog (LogPageLoadTimeout (TimeoutError "Timeout 30000ms exceeded")))
           (st_event (Sim.mkWorld 30 "a" 0) (EvCall c_wait_for_function) (at_page "a" 0))))) ∧
  (let env := Sim.env unreachable_site id in
   env_wait_for_function env (GLOBAL_TIMEOUT source_config) (world (at_page "" 0)) =
     (Ok tt, Sim.mkWorld 0 "" 0) ∧
   explore_node env source_config failing_explore "a" 0 (at_page "" 0) =
     (Ret tt,
      st_event (Sim.mkWorld 1 "a" 0) (EvLog (LogErrorVisiting 0 "a"))
        (st_event (Sim.mkWorld 1 "a" 0) (EvCall (c_goto "a"))
           (st_event (Sim.mkWorld 0 "" 0) (EvLog (LogVisiting 0 "a")) (at_page "" 0))))).
Proof.
  split.
  - intros env.
    rewrite (proj1 (proj2 (proj1 (C7_ready_timeout_tolerated_without_settle_delay
               env source_config (at_page "a" 0))
               (TimeoutError "Timeout 30000ms exceeded") (Sim.mkWorld 30 "a" 0) eq_refl))).
    reflexivity.
  - intros env. split; [reflexivity |].
    exact (proj2 (C7_ready_timeout_tolerated_without_settle_delay
                    env source_config (at_page "" 0))
             failing_explore "a" 0%nat (Error "net::ERR") (Sim.mkWorld 1 "a" 0) eq_refl).
Defined.

(** The claim as stated fails: on a page whose ready wait times out the
    explorer reads the title and the links without ever making the settle
    delay. *)
Lemma C7_no_settle_delay_after_timeout :
  let env := Sim.env never_ready_site id in
  let r := process_links_recursively env source_config 1 "a" 0 (at_page "" 0) in
  r.1 = Ret tt ∧
  timeline r.2 =
    [EvEnter "a" 0; EvCall (c_time 0); EvLog (LogVisiting 0 "a"); EvCall (c_goto "a");
     EvCall c_wait_for_function;
     EvLog (LogPageLoadTimeout (TimeoutError "Timeout 30000ms exceeded"));
     EvCall c_inner_text; EvSave (mkJob "a" "a"); EvCall (c_time 31);
     EvLog (LogSaved 0 "a"); EvCall (c_time 31);
     EvCall c_wait_for_function;
     EvLog (LogPageLoadTimeout (TimeoutError "Timeout 30000ms exceeded"));
     EvCall c_eval_on_selector_all; EvCall c_shuffle] ∧
  EvCall (c_wait_for_timeout 3000) ∉ timeline r.2.
Proof.
  vm_compute. split_and!; [done | done |].
  intros Hin. repeat (apply elem_of_cons in Hin as [Hin | Hin]; [done |]).
  by apply elem_of_nil in Hin.
Qed.

(** *** The end of a run *)

Section Run.

Context {W : Type} (env : Env W) (cfg : Config).

Lemma session_eq op (s : @St W) :
  session env op s =
  (match (env_session env op (world s)).1 with Ok _ => Ret tt | Err e => Exc e end,
   st_event (env_session env op (world s)).2 (EvCall (c_session op)) s).
Proof. unfold session, call. by destruct (env_session env op (world s)) as [[[] | e] w]. Qed.

Lemma write_to_csv_returns data filename (s : @St W) :
  ∃ s', write_to_csv env data filename s = (Ret tt, s') ∧ history s' = history s ∧
        ∃ evs, trace s' = evs ++ EvCall (c_to_csv (pd_DataFrame data) filename) :: trace s.
Proof.
  unfold write_to_csv, try_except, to_csv, call.
  destruct (env_to_csv env (pd_DataFrame data) filename (world s)) as [[[] | e] w]; simpl;
    eexists; (split_and!; [done | done |]).
  - by exists [].
  - by exists [EvLog (LogCsvError e)].
Qed.

Lemma persist_returns (s : @St W) :
  ∃ s', persist env cfg s = (Ret tt, s') ∧ history s' = history s ∧
        ∃ evs, trace s' = evs ++ trace s.
Proof.
  unfold persist, ifM, mbind, M_bind, log, emit.
  destruct (job_results (crawl s)) as [| jd results]; simpl.
  - destruct (write_to_csv_returns [] (CSV_OUTPUT cfg) (st_event (world s) (EvLog LogNoJobs) s))
      as (s' & -> & Hh & evs & Ht).
    exists s'. split_and!; [done | done |]. rewrite Ht. simpl.
    exists (evs ++ [EvCall (c_to_csv (mkDataFrame [] []) (CSV_OUTPUT cfg)); EvLog LogNoJobs]).
    by rewrite <- app_assoc.
  - destruct (write_to_csv_returns (jd :: results) (CSV_OUTPUT cfg)
                (st_event (world s) (EvLog (LogScraped (S (length results)))) s))
      as (s' & -> & Hh & evs & Ht).
    exists s'. split_and!; [done | done |]. rewrite Ht. simpl.
    eexists (evs ++ [_; _]). by rewrite <- app_assoc.
Qed.

Lemma scrape_jobs_ends_as_browser_phase fuel w :
  (scrape_jobs env cfg fuel w).1 = (browser_phase env cfg fuel (boot env w)).1 ∧
  history (scrape_jobs env cfg fuel w).2 = history (browser_phase env cfg fuel (boot env w)).2.
Proof.
  unfold scrape_jobs, mbind, M_bind.
  destruct (browser_phase env cfg fuel (boot env w)) as [[[] | e |] s1]; [| done | done].
  by destruct (persist_returns s1) as (s' & -> & Hh & _).
Qed.

End Run.

(** *** Exceptions and the browser session *)

Section Session.

Context {W : Type} (env : Env W) (cfg : Config).

(** A [try] block whose handler only logs never raises. *)
Lemma try_except_logged (body : M unit) (msg : exn -> LogMsg) (s : @St W) e :
  (try_except body (λ e', log (msg e')) s).1 ≠ Exc e.
Proof. unfold try_except. by destruct (body s) as [[[] | e' |] s1]. Qed.

Lemma root_phase_no_raise fuel (s : @St W) e :
  session_ok env → (root_phase env cfg fuel s).1 ≠ Exc e.
Proof.
  intros Hok. unfold root_phase, try_finally.
  match goal with |- context [try_except ?b ?h s] =>
    pose proof (try_except_logged b LogCritical s) as Hbody;
    destruct (try_except b h s) as [[[] | e' |] s1] end;
    [| by destruct (Hbody e') | done].
  unfold mbind, M_bind. by rewrite !session_eq, !Hok.
Qed.

Lemma browser_phase_no_raise fuel (s : @St W) e :
  session_ok env → (browser_phase env cfg fuel s).1 ≠ Exc e.
Proof.
  intros Hok. unfold browser_phase, mbind at 1, M_bind at 1. rewrite session_eq, Hok.
  unfold try_finally.
  assert (Hbody : ∀ (s0 : @St W) e0,
    ((session env ChromiumLaunch;; session env NewContext;; session env NewPage;;
      root_phase env cfg fuel) s0).1 ≠ Exc e0).
  { intros s0 e0. unfold mbind, M_bind. rewrite !session_eq, !Hok.
    by apply root_phase_no_raise. }
  match goal with |- (match ?b ?s0 with _ => _ end).1 ≠ _ =>
    pose proof (Hbody s0) as Hb; destruct (b s0) as [[[] | e0 |] s1] end;
    [| by destruct (Hb e0) | done].
  by rewrite session_eq, Hok.
Qed.

(** The root phase calls [context.close()] whenever it comes to an end. *)
Lemma root_phase_closes fuel (s : @St W) :
  (root_phase env cfg fuel s).1 ≠ OutOfFuel →
  EvCall (c_session ContextClose) ∈ trace (root_phase env cfg fuel s).2.
Proof.
  unfold root_phase, try_finally.
  destruct (try_except _ _ s) as [[[] | e |] s1]; [| | done]; intros _;
    unfold mbind, M_bind; rewrite session_eq;
    destruct (env_session env ContextClose (world s1)).1; simpl;
    try (apply elem_of_cons; by left);
    rewrite session_eq; destruct (env_session env BrowserClose _).1; simpl;
    apply elem_of_cons; right; apply elem_of_cons; by left.
Qed.

End Session.

Lemma sim_session_ok site perm : session_ok (Sim.env site perm).
Proof. by intros op w. Qed.

(** *** Persistence of an empty ledger *)

(** C8, as the code has it: when no call of the browser session raises, a
    run that comes to an end with an empty [job_results], for whatever
    reason, returns normally and still writes the output file, from a frame
    built of the empty list: the frame has no columns, so the file has no
    column headers and no data rows.  A failure of the write is caught and
    logged. *)
Theorem C8_empty_ledger_written_without_columns
    {W : Type} (env : Env W) (cfg : Config) (fuel : nat) (w : W) :
  session_ok env →
  (scrape_jobs env cfg fuel w).1 ≠ OutOfFuel →
  job_results (crawl (scrape_jobs env cfg fuel w).2) = [] →
  (scrape_jobs env cfg fuel w).1 = Ret tt ∧
  ∃ tr,
    trace (scrape_jobs env cfg fuel w).2 =
      EvCall (c_to_csv (mkDataFrame [] []) (CSV_OUTPUT cfg)) :: EvLog LogNoJobs :: tr ∨
    ∃ e, trace (scrape_jobs env cfg fuel w).2 =
      EvLog (LogCsvError e) ::
      EvCall (c_to_csv (mkDataFrame [] []) (CSV_OUTPUT cfg)) :: EvLog LogNoJobs :: tr.
Proof.
  intros Hok. pose proof (browser_phase_no_raise env cfg fuel (boot env w)) as Hraise.
  unfold scrape_jobs, mbind, M_bind.
  destruct (browser_phase env cfg fuel (boot env w)) as [[[] | e |] s1];
    [| by destruct (Hraise e Hok) | done].
  intros _.
  unfold persist, ifM, mbind, M_bind, write_to_csv, try_except, to_csv, call, log, emit.
  destruct (job_results (crawl s1)) as [| jd results] eqn:Hres; simpl.
  - destruct (env_to_csv env (mkDataFrame [] []) (CSV_OUTPUT cfg) (world s1)) as [[[] | e] w1];
      simpl; intros _; (split; [done |]); exists (trace s1); [by left | right; by exists e].
  - destruct (env_to_csv env _ (CSV_OUTPUT cfg) (world s1)) as [[[] | e] w1];
      simpl; by rewrite Hres.
Qed.

Lemma C8_empty_run_witness :
  (scrape_jobs (Sim.env slow_root_site id) source_config 5 Sim.start).1 = Ret tt ∧
  ∃ tr,
    trace (scrape_jobs (Sim.env slow_root_site id) source_config 5 Sim.start).2 =
      EvCall (c_to_csv (mkDataFrame [] []) "JobResults.csv") :: EvLog LogNoJobs :: tr ∨
    ∃ e, trace (scrape_jobs (Sim.env slow_root_site id) source_config 5 Sim.start).2 =
      EvLog (LogCsvError e) ::
      EvCall (c_to_csv (mkDataFrame [] []) "JobResults.csv") :: EvLog LogNoJobs :: tr.
Proof.
  apply (C8_empty_ledger_written_without_columns
           (Sim.env slow_root_site id) source_config 5 Sim.start).
  - apply sim_session_ok.
  - vm_compute. discriminate.
  - vm_compute. reflexivity.
Defined.

(** The claim as stated fails: the run that times out at once ends with an
    empty ledger, and the frame it writes has no column at all, where a
    header-only file would have the columns ["title"] and ["url"]. *)
Lemma C8_empty_file_has_no_header :
  let r := scrape_jobs (Sim.env slow_root_site id) source_config 5 Sim.start in
  r.1 = Ret tt ∧ job_results (crawl r.2) = [] ∧
  head (trace r.2) = Some (EvCall (c_to_csv (mkDataFrame [] []) "JobResults.csv")) ∧
  columns (pd_DataFrame []) ≠ ["title"; "url"]%string.
Proof. vm_compute. split_and!; done. Qed.

(** *** Failure of a node *)

Section Failure.

Context {W : Type} (env : Env W) (cfg : Config).

Lemma process_links_recursively_no_raise fuel link depth (s : @St W) e :
  (process_links_recursively env cfg fuel link depth s).1 ≠ Exc e.
Proof.
  destruct fuel as [| fuel]; simpl; unfold mbind, M_bind, emit, time_time; simpl; [done |].
  destruct (env_time env (world s)) as [t w]. unfold ifM.
  destruct (bool_decide _); [done |].
  unfold explore_node, try_except.
  by destruct (explore_node_body env cfg _ link depth _) as [[[] | e' |] s1].
Qed.

Lemma process_links_recursively_keeps fuel link depth (s : @St W) :
  keeps s (process_links_recursively env cfg fuel link depth s).2.
Proof.
  apply (process_links_recursively_simple_inv env cfg (keeps s)).
  - intros s1 w ev _ Hs. exact Hs.
  - intros s1 Hs. exact Hs.
  - intros s1 l (Hh & Hv & Hu & Hr) _. split_and!; simpl; [| set_solver | done | done].
    by apply suffix_cons_r.
  - intros s1 l d (Hh & Hv & Hu & Hr) _. split_and!; simpl; [| set_solver | done | done].
    by apply suffix_cons_r.
  - intros s1 jd (Hh & Hv & Hu & Hr) _. split_and!; simpl; [| done | set_solver |].
    + by apply suffix_cons_r.
    + by apply prefix_app_r.
  - intros s1 t (Hh & Hv & Hu & Hr). split_and!; simpl; [| done | done | done].
    by apply suffix_cons_r.
  - by split_and!.
Qed.

End Failure.

(** C10: an exception raised in the [try] block of a node, whatever the
    node has done before (saved its record, refreshed the timestamp, added
    candidates to [visited_links], explored some of them), is caught by the
    node's own handler, which only logs: the node returns normally in the
    very state the failure left, nothing is rolled back and only the rest
    of the block is skipped.  The explorer itself never raises, and whatever
    it returns it keeps all the stores, addresses and records it was
    entered with. *)
Theorem C10_node_failure_keeps_crawl_state {W : Type} (env : Env W) (cfg : Config) :
  (∀ explore link depth (s : @St W) e s1,
     explore_node_body env cfg explore link depth s = (Exc e, s1) →
     explore_node env cfg explore link depth s =
     (Ret tt, st_event (world s1) (EvLog (LogErrorVisiting depth link)) s1)) ∧
  (∀ fuel link depth (s : @St W),
     (∀ e, (process_links_recursively env cfg fuel link depth s).1 ≠ Exc e) ∧
     keeps s (process_links_recursively env cfg fuel link depth s).2).
Proof.
  split.
  - intros explore link depth s e s1 Hbody. unfold explore_node, try_except.
    by rewrite Hbody.
  - intros fuel link depth s. split.
    + intros e. apply process_links_recursively_no_raise.
    + apply process_links_recursively_keeps.
Qed.

Lemma C10_failing_recursion_witness :
  let env := Sim.env (λ a, Sim.page "A" a ["b"]) id in
  let r := explore_node env source_config failing_explore "a" 0 (at_page "" 0) in
  r.1 = Ret tt ∧
  job_results (crawl r.2) = [mkJob "A" "a"] ∧
  elements (unique_urls (crawl r.2)) = ["a"] ∧
  elements (visited_links (crawl r.2)) = ["b"] ∧
  last_save_time (crawl r.2) = 4 ∧
  head (trace r.2) = Some (EvLog (LogErrorVisiting 0 "a")).
Proof.
  intros env r. subst r.
  rewrite (proj1 (C10_node_failure_keeps_crawl_state env source_config)
             failing_explore "a" 0%nat (at_page "" 0) (Error "deeper recursion failed")
             (explore_node_body env source_config failing_explore "a" 0 (at_page "" 0)).2).
  - vm_compute. split_and!; reflexivity.
  - vm_compute. reflexivity.
Defined.

(** On a site where a child of page ["a"] does not load, the records of
    ["a"] and of the other child are both saved. *)
Example broken_child_run :
  let r := scrape_jobs (Sim.env broken_child_site id) source_config 5 Sim.start in
  r.1 = Ret tt ∧
  job_results (crawl r.2) = [mkJob "A" "a"; mkJob "C" "c"] ∧
  entered (trace r.2) = ["c"; "b"; "a"].
Proof. vm_compute. done. Qed.

(** ** Beyond the claims *)

(** *** Termination *)

Lemma unvisited_add {W : Type} (U : gset string) (s : @St W) link :
  link ∈ U → link ∉ visited_links (crawl s) →
  (unvisited U (visited_add link s).2 < unvisited U s)%nat.
Proof.
  intros HU Hnew. unfold unvisited. simpl. apply subset_size. split.
  - intros x. rewrite !elem_of_difference, elem_of_union. intros [Hx Hn].
    split; [done |]. intros Hv. apply Hn. by right.
  - intros Hsub.
    assert (link ∈ U ∖ ({[link]} ∪ visited_links (crawl s))) as Hin
      by (by apply Hsub, elem_of_difference).
    apply elem_of_difference in Hin as [_ Hn].
    apply Hn, elem_of_union. left. by apply elem_of_singleton.
Qed.

Lemma unvisited_mono {W : Type} (U : gset string) (s s' : @St W) :
  visited_links (crawl s) ⊆ visited_links (crawl s') →
  (unvisited U s' ≤ unvisited U s)%nat.
Proof.
  intros Hsub. unfold unvisited. apply subseteq_size.
  intros x. rewrite !elem_of_difference. intros [Hx Hn].
  split; [done |]. intros Hv. by apply Hn, Hsub.
Qed.

Section Termination.

Context {W : Type} (env : Env W) (cfg : Config) (U : gset string).
Hypothesis finite : FiniteSite env U.

Lemma find_job_links_in_site (s : @St W) links s' :
  find_job_links env cfg s = (Ret links, s') → ∀ l, l ∈ links → l ∈ U.
Proof.
  rewrite find_job_links_one_attempt.
  unfold find_job_links_body, try_except, mbind, M_bind.
  destruct (wait_for_page_load_returns env cfg s) as [s1 ->].
  unfold eval_on_selector_all, call.
  destruct (env_eval_on_selector_all env (world s1)) as [[ls | e] w] eqn:Hev; simpl.
  - intros [= <- <-]. by eapply (fs_links env U finite).
  - intros [= <- <-] l Hl. by apply elem_of_nil in Hl.
Qed.

Lemma record_job_returns depth link job_data (s : @St W) :
  ∃ s', record_job env depth link job_data s = (Ret tt, s').
Proof.
  destruct job_data as [jd |]; simpl; [| by eexists].
  unfold ifM. destruct (bool_decide _); [by eexists |].
  unfold mbind, M_bind, save_job, mutate, emit, time_time. simpl.
  destruct (env_time env _) as [t w]. by eexists.
Qed.

(** Finding and shuffling the candidates leaves [visited_links] alone and
    gives addresses of the site. *)
Lemma candidates_in_site (s : @St W) :
  ∃ links s', (find_job_links env cfg ≫= random_shuffle env) s = (Ret links, s') ∧
    visited_links (crawl s') = visited_links (crawl s) ∧ ∀ l, l ∈ links → l ∈ U.
Proof.
  destruct (find_job_links_returns env cfg s) as (links & s1 & Hf).
  pose proof (find_job_links_in_site s links s1 Hf) as HU.
  pose proof (find_job_links_inv env cfg (λ s', visited_links (crawl s') = visited_links (crawl s))
                (λ _ _ _ _ H, H) s eq_refl) as Hv.
  rewrite Hf in Hv. simpl in Hv.
  unfold mbind, M_bind. rewrite Hf. unfold random_shuffle.
  pose proof (fs_shuffle env U finite links (world s1)) as Hsh.
  destruct (env_shuffle env links (world s1)) as [links' w]. simpl in Hsh.
  exists links', (st_event w (EvCall c_shuffle) s1). split_and!; [done | done |].
  intros l Hl. by apply HU, Hsh.
Qed.

Lemma deeper_loop_returns fuel start depth links :
  (∀ link d (s : @St W), (unvisited U s < fuel)%nat →
     (process_links_recursively env cfg fuel link d s).1 = Ret tt) →
  ∀ s : @St W, (∀ l, l ∈ links → l ∈ U) → (unvisited U s < S fuel)%nat →
  (deeper_loop env cfg (process_links_recursively env cfg fuel) start depth links s).1 = Ret tt.
Proof.
  intros IH. induction links as [| c rest IHl]; intros s HU Hm; [done |].
  simpl. unfold mbind at 1, M_bind at 1, time_time.
  destruct (env_time env (world s)) as [t w].
  destruct (bool_decide (t - start > TIMEOUT_DEEPER_SECONDS cfg)); [done |].
  set (s1 := st_event w (EvCall (c_time t)) s).
  assert (HUrest : ∀ l, l ∈ rest → l ∈ U) by (intros l Hl; apply HU; by right).
  unfold mbind at 1, M_bind at 1, ifM. case_bool_decide as Hc.
  - simpl. by apply IHl.
  - unfold mbind at 1, M_bind at 1.
    assert (Hlt : (unvisited U (visited_add c s1).2 < fuel)%nat).
    { pose proof (unvisited_add U s1 c (HU c ltac:(by left)) Hc) as Hd.
      assert (unvisited U s1 = unvisited U s) as Heq by done. lia. }
    change (visited_add c s1) with (Ret tt, (visited_add c s1).2).
    pose proof (IH c (S depth) _ Hlt) as Hret.
    pose proof (process_links_recursively_keeps env cfg fuel c (S depth) (visited_add c s1).2)
      as (_ & Hv & _).
    destruct (process_links_recursively env cfg fuel c (S depth) (visited_add c s1).2)
      as [r s3]. simpl in Hret, Hv. subst r. apply IHl; [done |].
    pose proof (unvisited_mono U (visited_add c s1).2 s3 Hv). lia.
Qed.

Lemma process_links_recursively_returns fuel :
  ∀ link depth (s : @St W), (unvisited U s < fuel)%nat →
    (process_links_recursively env cfg fuel link depth s).1 = Ret tt.
Proof.
  induction fuel as [| fuel IH]; intros link depth s Hm; [lia |].
  simpl. unfold mbind, M_bind, emit, time_time. simpl.
  destruct (env_time env (world s)) as [t w]. unfold ifM.
  destruct (bool_decide _); [done |].
  set (s1 := st_event w (EvCall (c_time t)) (st_event (world s) (EvEnter link depth) s)).
  unfold explore_node, try_except.
  assert (Hbody : (explore_node_body env cfg (process_links_recursively env cfg fuel)
                     link depth s1).1 ≠ OutOfFuel).
  2: { by destruct (explore_node_body _ _ _ _ _ _) as [[[] | e |] s2]. }
  unfold explore_node_body, mbind at 1 2, M_bind at 1 2, log, emit, page_goto, call.
  simpl. destruct (env_goto env link (GLOBAL_TIMEOUT cfg) w) as [[[] | e] w1]; [| done].
  set (s2 := st_event w1 (EvCall (c_goto link)) _).
  assert (Hs2 : visited_links (crawl s2) = visited_links (crawl s)) by done.
  unfold mbind at 1, M_bind at 1.
  pose proof (extract_job_data_inv env cfg
                (λ s', visited_links (crawl s') = visited_links (crawl s))
                (λ _ _ _ _ H, H) s2 Hs2) as Hv3.
  rewrite extract_job_data_one_attempt.
  rewrite extract_job_data_one_attempt in Hv3.
  destruct (extract_job_data_body_returns env cfg s2) as (jd & s3 & Hex).
  rewrite Hex in *. simpl in Hv3.
  unfold mbind at 1, M_bind at 1.
  pose proof (record_job_inv env
                (λ s', visited_links (crawl s') = visited_links (crawl s))
                (λ _ _ _ _ H, H) (λ _ _ H _, H) (λ _ _ H, H) depth link jd s3 Hv3) as Hv4.
  destruct (record_job_returns depth link jd s3) as [s4 Hrec].
  rewrite Hrec in *. simpl in Hv4.
  destruct (env_time env (world s4)) as [t0 w0] eqn:Ht0.
  destruct (candidates_in_site (st_event w0 (EvCall (c_time t0)) s4))
    as (links & s5 & Hd & Hv5 & HU).
  rewrite (explore_deeper_eq env cfg _ depth s4 t0 w0 links s5 Ht0 Hd).
  rewrite (deeper_loop_returns fuel t0 depth links IH s5 HU); [done |].
  unfold unvisited in *. rewrite Hv5. simpl. by rewrite Hv4.
Qed.

End Termination.

(** *** The run as a whole *)

(** X1: the persistence step never changes how a run ends nor the crawl
    state.  Whatever the writer does, [scrape_jobs] ends as its browser
    phase ended, with the same stores: a write that raises is logged, not
    raised. *)
Theorem persist_never_fails_the_run
    {W : Type} (env : Env W) (cfg : Config) (fuel : nat) (w : W) :
  (scrape_jobs env cfg fuel w).1 = (browser_phase env cfg fuel (boot env w)).1 ∧
  history (scrape_jobs env cfg fuel w).2 = history (browser_phase env cfg fuel (boot env w)).2.
Proof. apply scrape_jobs_ends_as_browser_phase. Qed.

Section RunTermination.

Context {W : Type} (env : Env W) (cfg : Config) (U : gset string).
Hypothesis finite : FiniteSite env U.

Lemma unvisited_le (s : @St W) : (unvisited U s ≤ size U)%nat.
Proof. unfold unvisited. apply subseteq_size. apply subseteq_difference_l. done. Qed.

Lemma root_loop_returns fuel root_queue :
  (size U ≤ fuel)%nat →
  ∀ s : @St W, (∀ l, l ∈ root_queue → l ∈ U) →
  (root_loop env cfg fuel root_queue s).1 = Ret tt.
Proof.
  intros Hfuel. induction root_queue as [| r rest IH]; intros s HU; [done |].
  assert (HUrest : ∀ l, l ∈ rest → l ∈ U) by (intros l Hl; apply HU; by right).
  simpl. unfold ifM at 1. destruct (bool_decide _); [| done].
  unfold mbind at 1, M_bind at 1, ifM. case_bool_decide as Hc.
  - simpl. by apply IH.
  - unfold mbind at 1, M_bind at 1.
    change (visited_add r s) with (Ret tt, (visited_add r s).2).
    pose proof (unvisited_add U s r (HU r ltac:(by left)) Hc) as Hd.
    pose proof (unvisited_le s) as Hle.
    pose proof (process_links_recursively_returns env cfg U finite fuel r 0%nat
                  (visited_add r s).2 ltac:(lia)) as Hret.
    destruct (process_links_recursively env cfg fuel r 0 (visited_add r s).2) as [o s2].
    simpl in Hret. subst o. by apply IH.
Qed.

Lemma root_phase_finishes fuel (s : @St W) :
  (size U ≤ fuel)%nat → (root_phase env cfg fuel s).1 ≠ OutOfFuel.
Proof.
  intros Hfuel. unfold root_phase, try_finally.
  assert (Hbody : ∀ s0 : @St W,
    (try_except
       (log LogRootStart;; page_goto env cfg (ROOT_URL cfg);;
        root_links ← find_job_links env cfg; root_loop env cfg fuel root_links)
       (λ e, log (LogCritical e)) s0).1 ≠ OutOfFuel).
  { intros s0. unfold try_except, mbind at 1 2, M_bind at 1 2, log, emit, page_goto, call.
    simpl. destruct (env_goto env _ _ _) as [[[] | e] w1]; [| done].
    unfold mbind, M_bind.
    destruct (find_job_links_returns env cfg (st_event w1 (EvCall (c_goto (ROOT_URL cfg)))
                (st_event (world s0) (EvLog LogRootStart) s0))) as (links & s2 & Hf).
    rewrite Hf.
    pose proof (root_loop_returns fuel links Hfuel s2
                  (find_job_links_in_site env cfg U finite _ _ _ Hf)) as Hret.
    destruct (root_loop env cfg fuel links s2) as [r s3]. simpl in Hret. by subst r. }
  specialize (Hbody s).
  destruct (try_except _ _ s) as [[[] | e |] s1]; [| | done];
    unfold mbind, M_bind; rewrite !session_eq;
    destruct (env_session env ContextClose (world s1)).1; simpl; try done;
    by destruct (env_session env BrowserClose _).1.
Qed.

Lemma browser_phase_finishes fuel (s : @St W) :
  (size U ≤ fuel)%nat → (browser_phase env cfg fuel s).1 ≠ OutOfFuel.
Proof.
  intros Hfuel. unfold browser_phase, mbind at 1, M_bind at 1. rewrite session_eq.
  destruct (env_session env PlaywrightStart (world s)).1; [| done].
  unfold try_finally.
  assert (Hbody : ∀ s0 : @St W,
    ((session env ChromiumLaunch;; session env NewContext;; session env NewPage;;
      root_phase env cfg fuel) s0).1 ≠ OutOfFuel).
  { intros s0. unfold mbind, M_bind. rewrite session_eq.
    destruct (env_session env ChromiumLaunch (world s0)).1; [| done].
    rewrite session_eq. destruct (env_session env NewContext _).1; [| done].
    rewrite session_eq. destruct (env_session env NewPage _).1; [| done].
    by apply root_phase_finishes. }
  match goal with |- (match ?b ?s0 with _ => _ end).1 ≠ _ =>
    specialize (Hbody s0); destruct (b s0) as [[[] | e |] s1] end; [| | done];
    rewrite session_eq; by destruct (env_session env PlaywrightStop (world s1)).1.
Qed.

End RunTermination.

(** X2: on a site with finitely many addresses the crawl terminates.  When
    every address the pages list lies in a set [U], an explorer entered with
    fewer unvisited addresses of [U] than the recursion may go deep returns
    normally, and a run that may go as deep as [U] has addresses does not
    run out of depth: every recursive call uses up an address not visited
    before. *)
Theorem crawl_terminates_on_finite_site
    {W : Type} (env : Env W) (cfg : Config) (U : gset string) (fuel : nat) :
  FiniteSite env U → (size U ≤ fuel)%nat →
  (∀ link depth (s : @St W), (unvisited U s < fuel)%nat →
     (process_links_recursively env cfg fuel link depth s).1 = Ret tt) ∧
  (∀ w, (scrape_jobs env cfg fuel w).1 ≠ OutOfFuel).
Proof.
  intros Hfin Hfuel. split.
  - intros link depth s. by apply process_links_recursively_returns.
  - intros w. rewrite (proj1 (scrape_jobs_ends_as_browser_phase env cfg fuel w)).
    by eapply browser_phase_finishes.
Qed.

Lemma broken_child_site_finite : FiniteSite (Sim.env broken_child_site id) abc.
Proof.
  split.
  - intros w links w'. simpl. intros [= Hlinks _] l Hl.
    unfold broken_child_site in Hlinks.
    repeat case_decide; simpl in Hlinks; injection Hlinks as <-;
      repeat (apply elem_of_cons in Hl as [-> | Hl]); try (by apply elem_of_nil in Hl);
      by vm_compute.
  - intros l w a Ha. exact Ha.
Qed.

Lemma crawl_terminates_witness :
  (scrape_jobs (Sim.env broken_child_site id) source_config 3 Sim.start).1 ≠ OutOfFuel.
Proof.
  apply (proj2 (crawl_terminates_on_finite_site (Sim.env broken_child_site id) source_config
                  abc 3 broken_child_site_finite ltac:(apply Nat.leb_le; vm_compute; reflexivity))).
Defined.

(** X3: if no call of the browser session raises, no exception escapes
    [scrape_jobs], whatever the pages, the clock and the writer do. *)
Theorem no_exception_escapes_the_run
    {W : Type} (env : Env W) (cfg : Config) (fuel : nat) (w : W) (e : exn) :
  session_ok env → (scrape_jobs env cfg fuel w).1 ≠ Exc e.
Proof.
  intros Hok. rewrite (proj1 (scrape_jobs_ends_as_browser_phase env cfg fuel w)).
  by apply browser_phase_no_raise.
Qed.

Lemma no_exception_witness :
  (scrape_jobs (Sim.env unreachable_site id) source_config 3 Sim.start).1 ≠
  Exc (Error "net::ERR").
Proof.
  apply (no_exception_escapes_the_run (Sim.env unreachable_site id) source_config 3
           Sim.start (Error "net::ERR") (sim_session_ok _ _)).
Defined.

Section Seed.

Context {W : Type} (env : Env W) (cfg : Config).
Hypothesis session_fine : session_ok env.
Hypothesis seed_down : ∀ w, ∃ e, (env_goto env (ROOT_URL cfg) (GLOBAL_TIMEOUT cfg) w).1 = Err e.

Lemma root_phase_seed_down fuel (s : @St W) :
  ∃ s' e, root_phase env cfg fuel s = (Ret tt, s') ∧ history s' = history s ∧
    trace s' = EvCall (c_session BrowserClose) :: EvCall (c_session ContextClose) ::
               EvLog (LogCritical e) :: EvCall (c_goto (ROOT_URL cfg)) ::
               EvLog LogRootStart :: trace s.
Proof.
  unfold root_phase, try_finally, try_except, mbind, M_bind, log, emit, page_goto, call.
  simpl. destruct (seed_down (world s)) as [e He].
  destruct (env_goto env (ROOT_URL cfg) (GLOBAL_TIMEOUT cfg) (world s)) as [r w1].
  simpl in He. subst r. rewrite !session_eq, !session_fine. simpl.
  by eexists _, e.
Qed.

Lemma browser_phase_seed_down fuel (s : @St W) :
  ∃ s' e tr, browser_phase env cfg fuel s = (Ret tt, s') ∧ history s' = history s ∧
    entered (trace s') = entered (trace s) ∧
    trace s' = EvCall (c_session PlaywrightStop) :: EvCall (c_session BrowserClose) ::
               EvCall (c_session ContextClose) :: EvLog (LogCritical e) :: tr.
Proof.
  unfold browser_phase, try_finally, mbind, M_bind.
  rewrite !session_eq, !session_fine.
  match goal with |- context [root_phase env cfg fuel ?s0] =>
    destruct (root_phase_seed_down fuel s0) as (s1 & e & -> & Hh & Ht) end.
  rewrite session_eq, session_fine. eexists _, e, _. split_and!; [done | done | |]; simpl.
  - by rewrite Ht.
  - by rewrite Ht.
Qed.


End Seed.

(** X4: a seed page that cannot be loaded does not crash the run.  When
    [page.goto(ROOT_URL)] raises and no call of the browser session raises,
    the run logs the critical error, closes the context and the browser,
    leaves the [async with] block and returns normally: the explorer is
    never entered, the store is never updated, and right after the session
    is released the empty file is written. *)
Theorem unreachable_seed_still_persists
    {W : Type} (env : Env W) (cfg : Config) (fuel : nat) (w : W) :
  session_ok env →
  (∀ w0, ∃ e, (env_goto env (ROOT_URL cfg) (GLOBAL_TIMEOUT cfg) w0).1 = Err e) →
  ∃ s', scrape_jobs env cfg fuel w = (Ret tt, s') ∧
    history s' = [fresh_crawl (env_time env w).1] ∧
    entered (trace s') = [] ∧
    ∃ e tr evs,
      trace s' =
        evs ++ EvCall (c_to_csv (mkDataFrame [] []) (CSV_OUTPUT cfg)) :: EvLog LogNoJobs ::
        EvCall (c_session PlaywrightStop) :: EvCall (c_session BrowserClose) ::
        EvCall (c_session ContextClose) :: EvLog (LogCritical e) :: tr ∧
      (evs = [] ∨ ∃ e', evs = [EvLog (LogCsvError e')]).
Proof.
  intros Hok Hdown. unfold scrape_jobs, mbind, M_bind.
  destruct (browser_phase_seed_down env cfg Hok Hdown fuel (boot env w))
    as (s1 & e & tr & -> & Hh & Hen & Htr).
  assert (Hboot : history (boot env w) = [fresh_crawl (env_time env w).1] ∧
                  entered (trace (boot env w)) = []).
  { unfold boot. by destruct (env_time env w) as [t w1]. }
  destruct Hboot as [Hb1 Hb2]. rewrite Hb1 in Hh. rewrite Hb2 in Hen.
  assert (Hres : job_results (crawl s1) = []).
  { unfold history in Hh. by injection Hh as -> _. }
  unfold persist, ifM, mbind, M_bind, log, emit. rewrite Hres. simpl.
  unfold write_to_csv, try_except, to_csv, call. simpl.
  destruct (env_to_csv env (mkDataFrame [] []) (CSV_OUTPUT cfg) (world s1)) as [[[] | e'] w2];
    simpl; eexists; (split_and!; [done | done | done |]); simpl; rewrite Htr.
  - exists e, tr, []. split; [done | by left].
  - exists e, tr, [EvLog (LogCsvError e')]. split; [done | right; by exists e'].
Qed.

Lemma unreachable_seed_witness :
  ∃ s', scrape_jobs (Sim.env unreachable_site id) source_config 3 Sim.start = (Ret tt, s') ∧
    history s' = [fresh_crawl 0] ∧
    entered (trace s') = [] ∧
    ∃ e tr evs,
      trace s' =
        evs ++ EvCall (c_to_csv (mkDataFrame [] []) "JobResults.csv") :: EvLog LogNoJobs ::
        EvCall (c_session PlaywrightStop) :: EvCall (c_session BrowserClose) ::
        EvCall (c_session ContextClose) :: EvLog (LogCritical e) :: tr ∧
      (evs = [] ∨ ∃ e', evs = [EvLog (LogCsvError e')]).
Proof.
  apply (unreachable_seed_still_persists (Sim.env unreachable_site id) source_config 3
           Sim.start (sim_session_ok _ _)).
  intros w0. by exists (Error "net::ERR").
Defined.


Section Release.

Context {W : Type} (env : Env W) (cfg : Config).
Hypothesis startup_ok : ∀ op w, startup op → (env_session env op w).1 = Ok tt.

(** Once the browser is open, the browser phase ends (if the model does not
    run out of depth) with the context closed and Playwright stopped, and
    what it leaves on top of the events is the stop. *)
Lemma browser_phase_releases fuel (s : @St W) :
  (browser_phase env cfg fuel s).1 ≠ OutOfFuel →
  EvCall (c_session ContextClose) ∈ trace (browser_phase env cfg fuel s).2 ∧
  head (trace (browser_phase env cfg fuel s).2) = Some (EvCall (c_session PlaywrightStop)).
Proof.
  unfold browser_phase, try_finally, mbind, M_bind.
  rewrite !session_eq, !startup_ok; [| done ..].
  match goal with |- context [root_phase env cfg fuel ?s0] =>
    pose proof (root_phase_closes env cfg fuel s0) as Hclose;
    destruct (root_phase env cfg fuel s0) as [[[] | e |] s1] end; [| | done];
    intros _; specialize (Hclose ltac:(done)); simpl in Hclose;
    rewrite session_eq; destruct (env_session env PlaywrightStop (world s1)).1; simpl;
    (split; [by apply elem_of_cons; right | done]).
Qed.

End Release.

(** X5: the browser session is released on every way out of the crawl.  If
    the browser could be opened, then however the root phase ends (normally,
    by a critical error that is caught, or by a failure while closing), a
    run that comes to an end has called [context.close()] and has left the
    [async with] block through its exit. *)
Theorem session_released_on_every_exit
    {W : Type} (env : Env W) (cfg : Config) (fuel : nat) (w : W) :
  (∀ op w0, startup op → (env_session env op w0).1 = Ok tt) →
  (scrape_jobs env cfg fuel w).1 ≠ OutOfFuel →
  EvCall (c_session ContextClose) ∈ trace (scrape_jobs env cfg fuel w).2 ∧
  EvCall (c_session PlaywrightStop) ∈ trace (scrape_jobs env cfg fuel w).2.
Proof.
  intros Hstart Hend.
  rewrite (proj1 (scrape_jobs_ends_as_browser_phase env cfg fuel w)) in Hend.
  destruct (browser_phase_releases env cfg Hstart fuel (boot env w) Hend) as [Hclose Hstop].
  unfold scrape_jobs, mbind, M_bind.
  destruct (browser_phase env cfg fuel (boot env w)) as [[[] | e |] s1]; simpl in *.
  - destruct (persist_returns env cfg s1) as (s' & -> & _ & evs & Ht). simpl.
    rewrite Ht. split; apply elem_of_app; right; [done |].
    destruct (trace s1) as [| ev tr]; [done |]. injection Hstop as ->.
    apply elem_of_cons. by left.
  - split; [done |]. destruct (trace s1) as [| ev tr]; [done |]. injection Hstop as ->.
    apply elem_of_cons. by left.
  - done.
Qed.

Lemma session_released_witness :
  EvCall (c_session ContextClose) ∈
    trace (scrape_jobs (Sim.env unreachable_site id) source_config 3 Sim.start).2 ∧
  EvCall (c_session PlaywrightStop) ∈
    trace (scrape_jobs (Sim.env unreachable_site id) source_config 3 Sim.start).2.
Proof.
  apply (session_released_on_every_exit (Sim.env unreachable_site id) source_config 3 Sim.start).
  - by intros op w0 _.
  - vm_compute. discriminate.
Defined.

Section Stuck.

Context {W : Type} (env : Env W) (cfg : Config).
Hypothesis startup_ok : ∀ op w, startup op → (env_session env op w).1 = Ok tt.
Hypothesis stuck : ∀ w, ∃ e, (env_session env ContextClose w).1 = Err e.

Lemma root_phase_stuck fuel (s : @St W) :
  (root_phase env cfg fuel s).1 ≠ OutOfFuel →
  ∃ e s1, root_phase env cfg fuel s =
          (Exc e, st_event (env_session env ContextClose (world s1)).2
                    (EvCall (c_session ContextClose)) s1).
Proof.
  unfold root_phase, try_finally.
  destruct (try_except _ _ s) as [[[] | e |] s1]; [| | done]; intros _;
    unfold mbind, M_bind; rewrite session_eq;
    destruct (stuck (world s1)) as [e' He']; rewrite He'; by eexists _, s1.
Qed.

Lemma browser_phase_stuck fuel (s : @St W) :
  (browser_phase env cfg fuel s).1 ≠ OutOfFuel →
  ∃ e tr, (browser_phase env cfg fuel s).1 = Exc e ∧
          trace (browser_phase env cfg fuel s).2 =
          EvCall (c_session PlaywrightStop) :: EvCall (c_session ContextClose) :: tr.
Proof.
  unfold browser_phase, try_finally, mbind, M_bind.
  rewrite !session_eq, !startup_ok; [| done ..].
  match goal with |- context [root_phase env cfg fuel ?s0] =>
    pose proof (root_phase_stuck fuel s0) as Hstuck;
    destruct (root_phase env cfg fuel s0) as [[[] | e |] s1] end; [| | done];
    intros _; destruct (Hstuck ltac:(done)) as (e0 & s2 & [= Hs1]); [];
    try subst e0; subst s1;
    rewrite session_eq; destruct (env_session env PlaywrightStop _).1; simpl;
    by eexists _, _.
Qed.

End Stuck.

(** X6: a failure of [context.close()] loses the output.  The call sits
    first in the [finally] block: when it raises, [browser.close()] is not
    called, the exception leaves the [async with] block after its exit and
    leaves [scrape_jobs], and the persistence step is never reached. *)
Theorem failed_close_skips_persistence
    {W : Type} (env : Env W) (cfg : Config) (fuel : nat) (w : W) :
  (∀ op w0, startup op → (env_session env op w0).1 = Ok tt) →
  (∀ w0, ∃ e, (env_session env ContextClose w0).1 = Err e) →
  (scrape_jobs env cfg fuel w).1 ≠ OutOfFuel →
  (∃ e, (scrape_jobs env cfg fuel w).1 = Exc e) ∧
  ∃ tr, trace (scrape_jobs env cfg fuel w).2 =
        EvCall (c_session PlaywrightStop) :: EvCall (c_session ContextClose) :: tr.
Proof.
  intros Hstart Hstuck Hend.
  rewrite (proj1 (scrape_jobs_ends_as_browser_phase env cfg fuel w)) in Hend.
  destruct (browser_phase_stuck env cfg Hstart Hstuck fuel (boot env w) Hend)
    as (e & tr & He & Ht).
  unfold scrape_jobs, mbind, M_bind.
  destruct (browser_phase env cfg fuel (boot env w)) as [[[] | e' |] s1]; simpl in *;
    [done | | done].
  split; [by exists e' | by exists tr].
Qed.

Lemma failed_close_witness :
  (∃ e, (scrape_jobs (stuck_context_env chain_site) source_config 200 Sim.start).1 = Exc e) ∧
  ∃ tr, trace (scrape_jobs (stuck_context_env chain_site) source_config 200 Sim.start).2 =
        EvCall (c_session PlaywrightStop) :: EvCall (c_session ContextClose) :: tr.
Proof.
  apply (failed_close_skips_persistence (stuck_context_env chain_site) source_config 200
           Sim.start).
  - intros op w0 Hop. by destruct op.
  - intros w0. by exists (Error "Target closed").
  - vm_compute. discriminate.
Defined.

(** *** What is written *)

(** X7: a run that ends normally with records writes them all.  The last
    call of the run hands the writer a frame with the columns ["title"] and
    ["url"] and one row per record of [job_results], in the order the
    records were saved; a failure of the write is logged after it. *)
Theorem ledger_written_row_by_row
    {W : Type} (env : Env W) (cfg : Config) (fuel : nat) (w : W) (s' : @St W) :
  scrape_jobs env cfg fuel w = (Ret tt, s') →
  job_results (crawl s') ≠ [] →
  let frame := mkDataFrame ["title"; "url"]%string
                 (map (λ j, [title j; url j]) (job_results (crawl s'))) in
  ∃ tr,
    trace s' = EvCall (c_to_csv frame (CSV_OUTPUT cfg)) ::
               EvLog (LogScraped (length (job_results (crawl s')))) :: tr ∨
    ∃ e, trace s' = EvLog (LogCsvError e) :: EvCall (c_to_csv frame (CSV_OUTPUT cfg)) ::
                    EvLog (LogScraped (length (job_results (crawl s')))) :: tr.
Proof.
  unfold scrape_jobs, mbind, M_bind.
  destruct (browser_phase env cfg fuel (boot env w)) as [[[] | e |] s1]; [| done | done].
  unfold persist, ifM, mbind, M_bind, write_to_csv, try_except, to_csv, call, log, emit.
  destruct (job_results (crawl s1)) as [| jd results] eqn:Hres; simpl.
  - destruct (env_to_csv env (mkDataFrame [] []) (CSV_OUTPUT cfg) (world s1)) as [[[] | e] w1];
      simpl; intros [= <-]; simpl; by rewrite Hres.
  - destruct (env_to_csv env _ (CSV_OUTPUT cfg) (world s1)) as [[[] | e] w1];
      simpl; intros [= <-] _; simpl; rewrite Hres; simpl; exists (trace s1);
      [by left | right; by exists e].
Qed.

Lemma ledger_written_witness :
  ∃ tr,
    trace (scrape_jobs (Sim.env broken_child_site id) source_config 5 Sim.start).2 =
      EvCall (c_to_csv (mkDataFrame ["title"; "url"]%string [["A"; "a"]; ["C"; "c"]]%string)
                "JobResults.csv") :: EvLog (LogScraped 2) :: tr ∨
    ∃ e, trace (scrape_jobs (Sim.env broken_child_site id) source_config 5 Sim.start).2 =
      EvLog (LogCsvError e) ::
      EvCall (c_to_csv (mkDataFrame ["title"; "url"]%string [["A"; "a"]; ["C"; "c"]]%string)
                "JobResults.csv") :: EvLog (LogScraped 2) :: tr.
Proof.
  apply (ledger_written_row_by_row (Sim.env broken_child_site id) source_config 5 Sim.start
           (scrape_jobs (Sim.env broken_child_site id) source_config 5 Sim.start).2).
  - vm_compute. reflexivity.
  - vm_compute. discriminate.
Defined.

(** *** Extraction and discovery *)

(** X8: extraction and link discovery never raise and never touch the
    store.  [extract_job_data] returns either nothing or a record whose
    address is [page.url] as the page stands when it returns, and
    [find_job_links] returns a list, whatever the browser does. *)
Theorem extraction_and_discovery_degrade
    {W : Type} (env : Env W) (cfg : Config) (s : @St W) :
  (∃ job_data s', extract_job_data env cfg s = (Ret job_data, s') ∧
     history s' = history s ∧
     ∀ jd, job_data = Some jd → url jd = env_page_url env (world s')) ∧
  (∃ links s', find_job_links env cfg s = (Ret links, s') ∧ history s' = history s).
Proof.
  split.
  - pose proof (extract_job_data_inv env cfg (λ s', history s' = history s)
                  (λ _ _ _ _ H, H) s eq_refl) as Hh.
    rewrite extract_job_data_one_attempt in *.
    revert Hh. unfold extract_job_data_body, try_except, mbind, M_bind.
    destruct (wait_for_page_load_returns env cfg s) as [s1 ->].
    unfold h1_inner_text, call, page_url, log, emit.
    destruct (env_inner_text env (GLOBAL_TIMEOUT cfg) (world s1)) as [[t | e] w1]; simpl;
      intros Hh; eexists _, _; (split_and!; [done | done |]).
    + by intros jd [= <-].
    + by intros jd [=].
  - pose proof (find_job_links_inv env cfg (λ s', history s' = history s)
                  (λ _ _ _ _ H, H) s eq_refl) as Hh.
    destruct (find_job_links_returns env cfg s) as (links & s' & Hf).
    rewrite Hf in Hh. by eexists _, _.
Qed.

Lemma entered_plain ev tr : plain ev → entered (ev :: tr) = entered tr.
Proof. by destruct ev. Qed.

Section NoLinks.

Context {W : Type} (env : Env W) (cfg : Config).
Hypothesis no_links : ∀ w, ∃ e, (env_eval_on_selector_all env w).1 = Err e.




End NoLinks.



(** *** The ledger over time *)

Lemma steps_ok_mono (R : Crawl -> Crawl -> Prop) h i j newer older :
  (∀ c, R c c) → (∀ a b c, R a b → R b c → R a c) →
  (∀ old new, crawl_step old new → R old new) →
  steps_ok h → h !! i = Some newer → h !! j = Some older → (i ≤ j)%nat →
  R older newer.
Proof.
  intros Hrefl Htrans Hstep. revert i j newer.
  induction h as [| c h IH]; intros i j newer Hst Hi Hj Hij; [done |].
  destruct i as [| i].
  - simpl in Hi. injection Hi as ->. clear Hij IH. revert newer j Hst Hj.
    induction h as [| c' h IHh]; intros newer j Hst Hj.
    + destruct j as [| j]; simpl in Hj; [| done]. by injection Hj as ->.
    + destruct j as [| j]; simpl in Hj; [by injection Hj as -> |].
      destruct Hst as [Hs Hst]. apply (Htrans _ c'); [by apply (IHh c' j) | by apply Hstep].
  - destruct j as [| j]; [lia |]. simpl in Hi, Hj.
    apply (IH i j); [by eapply steps_ok_tail | done | done | lia].
Qed.

(** X10: the ledger is append-only and the set of saved addresses only
    grows.  Of any two stores a run goes through, the earlier one's
    [job_results] is a prefix of the later one's, so records are never
    removed or reordered, and its [unique_urls] is included in the later
    one's. *)
Theorem ledger_is_append_only
    {W : Type} (env : Env W) (cfg : Config) (fuel : nat) (w : W) :
  let s := (scrape_jobs env cfg fuel w).2 in
  (∀ i j newer older, history s !! i = Some newer → history s !! j = Some older →
     (i ≤ j)%nat → job_results older `prefix_of` job_results newer) ∧
  (∀ i j newer older, history s !! i = Some newer → history s !! j = Some older →
     (i ≤ j)%nat → unique_urls older ⊆ unique_urls newer).
Proof.
  destruct (history_ok_run env cfg fuel w) as [Hst _]. split.
  - intros i j newer older Hi Hj Hij.
    apply (steps_ok_mono (λ a b, job_results a `prefix_of` job_results b)
             (history (scrape_jobs env cfg fuel w).2) i j newer older);
      [done | intros a b c; apply transitivity | | done ..].
    intros old new [link _ -> | jd _ -> | t ->]; simpl; [done | by apply prefix_app_r | done].
  - intros i j newer older Hi Hj Hij.
    apply (steps_ok_mono (λ a b, unique_urls a ⊆ unique_urls b)
             (history (scrape_jobs env cfg fuel w).2) i j newer older);
      [done | intros a b c; apply transitivity | | done ..].
    intros old new [link _ -> | jd _ -> | t ->]; simpl; [done | | done].
    apply union_subseteq_r.
Qed.

(** *** The root loop *)

Section RootLoop.

Context {W : Type} (env : Env W) (cfg : Config).

Lemma root_loop_keeps fuel root_queue (s : @St W) :
  keeps s (root_loop env cfg fuel root_queue s).2.
Proof.
  apply (root_loop_inv env cfg (keeps s) (keeps s)); try done.
  - intros s1 jd (Hh & Hv & Hu & Hr) _. split_and!; simpl; [| done | |].
    + by apply suffix_cons_r.
    + by apply union_subseteq_r'.
    + by apply prefix_app_r.
  - intros s1 t (Hh & Hv & Hu & Hr). split_and!; simpl; [| done | done | done].
    by apply suffix_cons_r.
  - intros s1 Hs. unfold time_time. by destruct (env_time env (world s1)).
  - intros s1 l (Hh & Hv & Hu & Hr) _. split_and!; simpl; [| | done | done].
    + by apply suffix_cons_r.
    + by apply union_subseteq_r'.
  - intros s1 l d (Hh & Hv & Hu & Hr) _. split_and!; simpl; [| | done | done].
    + by apply suffix_cons_r.
    + by apply union_subseteq_r'.
Qed.

(** After a root link has had its turn it is in [visited_links]. *)
Lemma root_turn_visits fuel root_link (s s' : @St W) :
  (ifM (λ s0, bool_decide (root_link ∈ visited_links (crawl s0))) (mret tt)
     (visited_add root_link;; process_links_recursively env cfg fuel root_link 0)) s
  = (Ret tt, s') →
  root_link ∈ visited_links (crawl s').
Proof.
  unfold ifM. case_bool_decide as Hc.
  - by intros [= <-].
  - unfold mbind, M_bind. change (visited_add root_link s) with (Ret tt, (visited_add root_link s).2).
    pose proof (process_links_recursively_keeps env cfg fuel root_link 0
                  (visited_add root_link s).2) as (_ & Hv & _).
    intros Heq. rewrite Heq in Hv. simpl in Hv. apply Hv.
    apply elem_of_union. left. by apply elem_of_singleton.
Qed.

Lemma root_loop_again fuel root_queue :
  ∀ s s1 : @St W,
    root_loop env cfg fuel root_queue s = (Ret tt, s1) →
    root_loop env cfg fuel root_queue s1 = (Ret tt, s1).
Proof.
  induction root_queue as [| a rest IH]; intros s s1 Hrun; [done |].
  simpl in Hrun. unfold ifM at 1 in Hrun.
  destruct (bool_decide (length (job_results (crawl s)) < MAX_RECORDS cfg)%nat) eqn:Hcap.
  - unfold mbind at 1, M_bind at 1 in Hrun.
    destruct (ifM _ _ _ s) as [[[] | e |] s'] eqn:Hturn; [| done | done].
    pose proof (root_turn_visits fuel a s s' Hturn) as Ha.
    pose proof (root_loop_keeps fuel rest s') as (_ & Hv & _).
    rewrite Hrun in Hv. simpl in Hv.
    simpl. unfold ifM at 1.
    destruct (bool_decide (length (job_results (crawl s1)) < MAX_RECORDS cfg)%nat); [| done].
    unfold mbind, M_bind, ifM.
    rewrite (bool_decide_eq_true_2 (a ∈ visited_links (crawl s1))); [| by apply Hv].
    simpl. by apply (IH s').
  - injection Hrun as <-. simpl. unfold ifM at 1. by rewrite Hcap.
Qed.

End RootLoop.

(** X11: the root loop is idempotent.  Once it has gone through a queue
    of root links, going through the same queue again from the state it
    left changes nothing: every link has been marked visited or the cap has
    been reached. *)
Theorem root_loop_idempotent
    {W : Type} (env : Env W) (cfg : Config) (fuel : nat) (root_queue : list string)
    (s s1 : @St W) :
  root_loop env cfg fuel root_queue s = (Ret tt, s1) →
  root_loop env cfg fuel root_queue s1 = (Ret tt, s1).
Proof. apply root_loop_again. Qed.

Lemma root_loop_idempotent_witness :
  let env := Sim.env broken_child_site id in
  let s1 := (root_loop env source_config 5 ["a"; "c"; "a"] (at_page "" 0)).2 in
  root_loop env source_config 5 ["a"; "c"; "a"] s1 = (Ret tt, s1).
Proof.
  intros env s1.
  apply (root_loop_idempotent env source_config 5 ["a"; "c"; "a"] (at_page "" 0) s1).
  vm_compute. reflexivity.
Defined.

(** *** The traversal in whole steps

    An invariant that need only hold between the steps of the program that
    belong together: the append of a record with the refresh of the
    timestamp (lines 88-90), and the marking of an address with the entry
    of the explorer on it (lines 106-107, 136-137). *)

Section Whole.

Context {W : Type} (env : Env W) (cfg : Config) (I : @St W -> Prop).
Hypothesis I_plain : ∀ s w ev, plain ev → I s → I (st_event w ev s).
Hypothesis I_kill : ∀ s, I s → I (st_event (world s) kill s).
Hypothesis I_enter : ∀ s link depth,
  I s → link ∉ visited_links (crawl s) →
  I (st_event (world s) (EvEnter link depth) (visited_add link s).2).
Hypothesis I_record : ∀ s jd,
  I s → url jd ∉ unique_urls (crawl s) →
  I ((save_job jd;; t ← time_time env; set_last_save_time t) s).2.

Lemma record_job_whole depth link job_data :
  hoare I (record_job env depth link job_data) I.
Proof.
  destruct job_data as [jd |]; simpl; [| by apply log_inv].
  apply hoare_ifM.
  - intros s [Hs _]. by apply (log_inv I I_plain (LogNotSaved depth link)).
  - intros s [Hs Hc]. apply bool_decide_eq_false in Hc.
    pose proof (I_record s jd Hs Hc) as Hrec. revert Hrec.
    unfold mbind, M_bind, save_job, mutate, emit, time_time, set_last_save_time, log. simpl.
    destruct (env_time env (world s)) as [t w]. simpl. intros Hrec.
    by apply (I_plain _ _ (EvLog (LogSaved depth link))).
Qed.

Lemma schedule_whole (explore : string -> nat -> M unit) link depth :
  (∀ l d, hoare (entering I l d) (explore l d) I) →
  hoare I
    (ifM (λ s, bool_decide (link ∈ visited_links (crawl s)))
       (mret tt) (visited_add link;; explore link depth)) I.
Proof.
  intros Hex. apply hoare_ifM.
  - intros s [Hs _]. exact Hs.
  - intros s [Hs Hc]. apply bool_decide_eq_false in Hc.
    unfold mbind, M_bind. change (visited_add link s) with (Ret tt, (visited_add link s).2).
    apply Hex. exact (I_enter s link depth Hs Hc).
Qed.

Lemma deeper_loop_whole (explore : string -> nat -> M unit) start depth links :
  (∀ l d, hoare (entering I l d) (explore l d) I) →
  hoare I (deeper_loop env cfg explore start depth links) I.
Proof.
  intros Hex. induction links as [| link rest IH]; simpl; [apply hoare_ret |].
  apply hoare_seq; [by apply time_time_inv | intros t].
  case_bool_decide; [by apply log_inv |].
  apply hoare_seq; [by apply schedule_whole | intros _; apply IH].
Qed.

Lemma explore_node_whole (explore : string -> nat -> M unit) link depth :
  (∀ l d, hoare (entering I l d) (explore l d) I) →
  hoare I (explore_node env cfg explore link depth) I.
Proof.
  intros Hex. apply (hoare_try_except I); [| intros e; by apply log_inv | done].
  apply hoare_seq; [by apply log_inv | intros _].
  apply hoare_seq; [by apply call_inv | intros _].
  apply hoare_seq; [by apply extract_job_data_inv | intros job_data].
  apply hoare_seq; [apply record_job_whole | intros _].
  apply hoare_seq; [by apply time_time_inv | intros start].
  apply hoare_seq; [by apply find_job_links_inv | intros links].
  apply hoare_seq; [by apply random_shuffle_inv | intros links'].
  by apply deeper_loop_whole.
Qed.

Lemma process_links_recursively_whole fuel link depth :
  hoare (entering I link depth) (process_links_recursively env cfg fuel link depth) I.
Proof.
  revert link depth. induction fuel as [| fuel IH]; intros link depth; simpl;
    (apply (hoare_bind I); [by apply hoare_emit | intros _ | done]).
  - intros s Hs. exact Hs.
  - apply hoare_seq; [by apply time_time_inv | intros t].
    apply hoare_ifM.
    + apply hoare_emit. intros s [Hs _]. by apply I_kill.
    + apply (hoare_weaken _ I _ I); [by apply explore_node_whole | by intros s [Hs _] | done].
Qed.

Lemma root_loop_whole fuel root_queue : hoare I (root_loop env cfg fuel root_queue) I.
Proof.
  induction root_queue as [| root_link rest IH]; simpl; [apply hoare_ret |].
  apply hoare_ifM; [| by intros s [Hs _]].
  apply (hoare_weaken _ I _ I); [| by intros s [Hs _] | done].
  apply hoare_seq; [| intros _; apply IH].
  apply schedule_whole. intros l d. apply process_links_recursively_whole.
Qed.

Lemma scrape_jobs_whole fuel w :
  (∀ w1 t, I {| world := w1; crawl := fresh_crawl t; past := []; trace := [EvCall (c_time t)] |}) →
  I (scrape_jobs env cfg fuel w).2.
Proof.
  intros Hboot. unfold scrape_jobs.
  apply (hoare_seq I (browser_phase env cfg fuel) (λ _, persist env cfg)).
  - apply hoare_seq; [by apply call_inv | intros _].
    apply (hoare_try_finally I); [| by apply call_inv | done].
    do 3 (apply hoare_seq; [by apply call_inv | intros _]).
    apply (hoare_try_finally I); [| | done].
    + apply (hoare_try_except I); [| intros e; by apply log_inv | done].
      apply hoare_seq; [by apply log_inv | intros _].
      apply hoare_seq; [by apply call_inv | intros _].
      apply hoare_seq; [by apply find_job_links_inv | intros links].
      apply root_loop_whole.
    + apply hoare_seq; [| intros _]; by apply call_inv.
  - intros _. apply persist_inv.
    + intros s m Hm Hs. apply I_plain; [by destruct m | done].
    + intros s df filename. by apply call_inv.
  - unfold boot. destruct (env_time env w) as [t w1]. apply Hboot.
Qed.

End Whole.

Lemma visited_entered_run {W : Type} (env : Env W) (cfg : Config) (fuel : nat) (w : W) :
  visited_links (crawl (scrape_jobs env cfg fuel w).2) =
  list_to_set (entered (trace (scrape_jobs env cfg fuel w).2)).
Proof.
  apply (scrape_jobs_whole env cfg
           (λ s, visited_links (crawl s) = list_to_set (entered (trace s)))).
  - intros s w1 ev Hev Hs. simpl. rewrite Hs. f_equal. symmetry.
    exact (entered_plain ev (trace s) Hev).
  - intros s Hs. exact Hs.
  - intros s link depth Hs _. simpl. by rewrite Hs.
  - intros s jd Hs _. unfold mbind, M_bind, save_job, mutate, emit, time_time. simpl.
    by destruct (env_time env (world s)) as [t w1].
  - intros w1 t. done.
Qed.

(** X12: every address marked visited is handed to the explorer.  When a
    run stops, [visited_links] is exactly the set of addresses the explorer
    was entered on. *)
Theorem visited_are_the_entered
    {W : Type} (env : Env W) (cfg : Config) (fuel : nat) (w : W) :
  visited_links (crawl (scrape_jobs env cfg fuel w).2) =
  list_to_set (entered (trace (scrape_jobs env cfg fuel w).2)).
Proof. apply visited_entered_run. Qed.

(** X13: the deadline clock holds the time of the last progress.  When a
    run stops, [last_save_time] is the clock reading taken right after the
    most recent record was appended, or the reading taken at the start when
    no record has been saved: nothing else ever sets it. *)
Theorem last_save_time_is_the_last_progress
    {W : Type} (env : Env W) (cfg : Config) (fuel : nat) (w : W) :
  progress_reading (trace (scrape_jobs env cfg fuel w).2) =
  Some (last_save_time (crawl (scrape_jobs env cfg fuel w).2)).
Proof.
  apply (scrape_jobs_whole env cfg
           (λ s, progress_reading (trace s) = Some (last_save_time (crawl s)) ∧
                 settled (trace s))).
  - intros s w1 ev Hev [Hp Hs]. split; [| by destruct ev].
    simpl. destruct (trace s) as [| ev' tr]; [done |].
    destruct ev as [[] | | | |]; try done. by destruct ev'.
  - intros s [Hp Hs]. split; [| done].
    simpl. by destruct (trace s) as [| ev' tr].
  - intros s link depth [Hp Hs] _. split; [| done].
    simpl. by destruct (trace s) as [| ev' tr].
  - intros s jd [Hp Hs] _. unfold mbind, M_bind, save_job, mutate, emit, time_time. simpl.
    by destruct (env_time env (world s)) as [t w1].
  - intros w1 t. done.
Qed.


(** *** One record per explored address *)

Section OneRecord.

Context {W : Type} (env : Env W) (cfg : Config).

Lemma room_plain k (s : @St W) w ev : plain ev → room k s → room k (st_event w ev s).
Proof.
  unfold room, spare. intros Hev Hs.
  change (k ≤ Z.of_nat (length (entered (ev :: trace s))) -
              Z.of_nat (length (job_results (crawl s)))).
  by rewrite (entered_plain ev (trace s) Hev).
Qed.

Lemma room_less k (s : @St W) : room (k + 1) s → room k s.
Proof. unfold room. lia. Qed.

Lemma record_job_room k depth link job_data :
  hoare (room (k + 1)) (record_job env depth link job_data) (room k).
Proof.
  destruct job_data as [jd |]; simpl.
  - apply hoare_ifM.
    + intros s [Hs _]. by apply room_less, room_plain.
    + intros s [Hs _]. revert Hs.
      unfold mbind, M_bind, save_job, mutate, emit, time_time, set_last_save_time, log. simpl.
      destruct (env_time env (world s)) as [t w]. unfold room, spare. simpl.
      rewrite length_app. simpl. lia.
  - intros s Hs. by apply room_less, room_plain.
Qed.

Lemma schedule_room k (explore : string -> nat -> @M W unit) link depth :
  (∀ l d, hoare (room k) (explore l d) (room k)) →
  hoare (room k)
    (ifM (λ s, bool_decide (link ∈ visited_links (crawl s)))
       (mret tt) (visited_add link;; explore link depth)) (room k).
Proof.
  intros Hex. apply hoare_ifM.
  - intros s [Hs _]. exact Hs.
  - intros s [Hs _]. unfold mbind, M_bind.
    change (visited_add link s) with (Ret tt, (visited_add link s).2).
    apply Hex. exact Hs.
Qed.

Lemma deeper_loop_room k (explore : string -> nat -> @M W unit) start depth links :
  (∀ l d, hoare (room k) (explore l d) (room k)) →
  hoare (room k) (deeper_loop env cfg explore start depth links) (room k).
Proof.
  intros Hex. induction links as [| link rest IH]; simpl; [apply hoare_ret |].
  apply hoare_seq; [apply time_time_inv, room_plain | intros t].
  case_bool_decide; [by apply log_inv; [apply room_plain |] |].
  apply hoare_seq; [by apply schedule_room | intros _; apply IH].
Qed.

Lemma explore_node_room k (explore : string -> nat -> @M W unit) link depth :
  (∀ l d, hoare (room k) (explore l d) (room k)) →
  hoare (room (k + 1)) (explore_node env cfg explore link depth) (room k).
Proof.
  intros Hex. apply (hoare_try_except (room k)); [| | done].
  2: { intros e. by apply log_inv; [apply room_plain |]. }
  apply (hoare_bind (room (k + 1))); [by apply log_inv; [apply room_plain |] | intros _ |
                                      apply room_less].
  apply (hoare_bind (room (k + 1))); [apply call_inv, room_plain | intros _ | apply room_less].
  apply (hoare_bind (room (k + 1)));
    [apply extract_job_data_inv, room_plain | intros job_data | apply room_less].
  apply (hoare_bind (room k)); [apply record_job_room | intros _ | done].
  apply hoare_seq; [apply time_time_inv, room_plain | intros start].
  apply hoare_seq; [apply find_job_links_inv, room_plain | intros links].
  apply hoare_seq; [apply random_shuffle_inv, room_plain | intros links'].
  by apply deeper_loop_room.
Qed.

Lemma process_links_recursively_room fuel :
  ∀ k link depth,
    hoare (room k) (process_links_recursively env cfg fuel link depth) (room k).
Proof.
  induction fuel as [| fuel IH]; intros k link depth; simpl;
    (apply (hoare_bind (room (k + 1))); [| intros _ | apply room_less]).
  - apply hoare_emit. intros s. unfold room, spare. simpl. lia.
  - intros s Hs. by apply room_less.
  - apply hoare_emit. intros s. unfold room, spare. simpl. lia.
  - apply (hoare_bind (room (k + 1))); [apply time_time_inv, room_plain | intros t |
                                        apply room_less].
    apply hoare_ifM.
    + apply hoare_emit. intros s [Hs _]. by apply room_less.
    + apply (hoare_weaken _ (room (k + 1)) _ (room k));
        [by apply explore_node_room | by intros s [Hs _] | done].
Qed.

Lemma root_loop_room k fuel root_queue :
  hoare (room k) (root_loop env cfg fuel root_queue) (room k).
Proof.
  induction root_queue as [| root_link rest IH]; simpl; [apply hoare_ret |].
  apply hoare_ifM; [| by intros s [Hs _]].
  apply (hoare_weaken _ (room k) _ (room k)); [| by intros s [Hs _] | done].
  apply hoare_seq; [| intros _; apply IH].
  apply schedule_room. intros l d. apply process_links_recursively_room.
Qed.

Lemma room_run fuel w : room 0 (scrape_jobs env cfg fuel w).2.
Proof.
  unfold scrape_jobs.
  apply (hoare_seq (room 0) (browser_phase env cfg fuel) (λ _, persist env cfg)).
  - apply hoare_seq; [apply call_inv, room_plain | intros _].
    apply (hoare_try_finally (room 0)); [| apply call_inv, room_plain | done].
    do 3 (apply hoare_seq; [apply call_inv, room_plain | intros _]).
    apply (hoare_try_finally (room 0)); [| | done].
    + apply (hoare_try_except (room 0)); [| intros e; by apply log_inv; [apply room_plain |] |
                                           done].
      apply hoare_seq; [by apply log_inv; [apply room_plain |] | intros _].
      apply hoare_seq; [apply call_inv, room_plain | intros _].
      apply hoare_seq; [apply find_job_links_inv, room_plain | intros links].
      apply root_loop_room.
    + apply hoare_seq; [| intros _]; apply call_inv, room_plain.
  - intros _. apply persist_inv.
    + intros s m Hm Hs. apply room_plain; [by destruct m | done].
    + intros s df filename. apply call_inv, room_plain.
  - unfold boot. by destruct (env_time env w) as [t w1].
Qed.

End OneRecord.

(** X14: at most one record per explored address.  When a run stops,
    [job_results] has no more records than the explorer was entered times,
    which is the number of addresses in [visited_links]: a node saves at
    most once, before it goes deeper. *)
Theorem at_most_one_record_per_address
    {W : Type} (env : Env W) (cfg : Config) (fuel : nat) (w : W) :
  let s := (scrape_jobs env cfg fuel w).2 in
  (length (job_results (crawl s)) ≤ length (entered (trace s)))%nat ∧
  length (entered (trace s)) = size (visited_links (crawl s)).
Proof.
  split.
  - pose proof (room_run env cfg fuel w) as Hr. unfold room, spare in Hr. lia.
  - destruct (schedule_ok_run env cfg fuel w) as (_ & Hnd & _).
    rewrite visited_entered_run. by rewrite size_list_to_set.
Qed.
